(** * UK OS Map (GPX) plugin: the options parser and the track extractor

    A shallow embedding of the two helpers of [src/main.ts] that carry the
    plugin's own logic,

      - [parseYamlLike]  (main.ts, lines 184-223), and
      - [gpxToPolyline]  (main.ts, lines 240-256),

    together with the parts of the JavaScript platform they call
    ([String.prototype.split/trim*/replace], the regular expressions,
    [Number], [parseFloat], [JSON.parse], property assignment on a plain
    object, and [getElementsByTagName]/[getAttribute] on a DOM tree).

    Conventions.
      - A JavaScript string is a list of UTF-16 code units ([char := N]).
      - A finite Number is kept as the exact decimal value its literal
        denotes; the rounding to binary64 is not represented (nothing below
        depends on it).  [NaN] and the infinities are explicit.
      - The object [out] is the finite map of its own properties plus its
        prototype slot, so that [out[key] = v] can be given its JavaScript
        meaning for every key.
      - [DOMParser] and Leaflet's [L.polyline] are collaborators outside the
        repository; [gpxToPolyline] is parameterised by them.

    The later parts cover more of the file: [osRasterUrl] (lines 44-46)
    with [encodeURIComponent], [resolveLink] (lines 225-234) with the two
    vault lookups as parameters, the expressions by which
    [renderOSMapBlock] reads the options (lines 95-99, 125, 161), and the
    [onChange] handlers of the settings tab (lines 294-346). *)

From Stdlib Require Import NArith ZArith String Ascii.
From stdpp Require Import base option list sorting gmap.

Set Warnings "-register-all".

Local Open Scope N_scope.
Local Open Scope list_scope.

(* ===================================================================== *)
(** ** Strings *)
(* ===================================================================== *)

Module JsString.

Definition char := N.
Definition jsstring := list char.

(** String literals of the development: the code units of an ASCII text. *)
Fixpoint js (s : string) : jsstring :=
  match s with
  | EmptyString => []
  | String a s' => N_of_ascii a :: js s'
  end.

Definition LF : char := 10.
Definition CR : char := 13.

(** ECMAScript [LineTerminator]: the characters [.] does not match. *)
Definition is_line_terminator (c : char) : bool :=
  (c =? 10) || (c =? 13) || (c =? 8232) || (c =? 8233).

(** ECMAScript [WhiteSpace] or [LineTerminator]: what [\s] matches and what
    [trim], [trimStart], [trimEnd], [Number] and [parseFloat] strip. *)
Definition is_space (c : char) : bool :=
  (c =? 9) || (c =? 10) || (c =? 11) || (c =? 12) || (c =? 13) || (c =? 32)
  || (c =? 160) || (c =? 5760) || ((8192 <=? c) && (c <=? 8202))
  || (c =? 8232) || (c =? 8233) || (c =? 8239) || (c =? 8287)
  || (c =? 12288) || (c =? 65279).

Definition is_digit (c : char) : bool := (48 <=? c) && (c <=? 57).
Definition is_upper (c : char) : bool := (65 <=? c) && (c <=? 90).
Definition is_lower (c : char) : bool := (97 <=? c) && (c <=? 122).

(** The character class [[A-Za-z0-9_-]]. *)
Definition is_key_char (c : char) : bool :=
  is_upper c || is_lower c || is_digit c || (c =? 95) || (c =? 45).

Fixpoint string_eqb (a b : jsstring) : bool :=
  match a, b with
  | [], [] => true
  | x :: a', y :: b' => (x =? y) && string_eqb a' b'
  | _, _ => false
  end.

Fixpoint drop_while (p : char -> bool) (s : jsstring) : jsstring :=
  match s with
  | [] => []
  | c :: s' => if p c then drop_while p s' else s
  end.

Fixpoint take_while (p : char -> bool) (s : jsstring) : jsstring :=
  match s with
  | [] => []
  | c :: s' => if p c then c :: take_while p s' else []
  end.

(** [s.trimStart()], [s.trimEnd()], [s.trim()]. *)
Definition trimStart (s : jsstring) : jsstring := drop_while is_space s.
Definition trimEnd (s : jsstring) : jsstring := rev (drop_while is_space (rev s)).
Definition trim (s : jsstring) : jsstring := trimEnd (trimStart s).

(** [s.startsWith(p)]. *)
Fixpoint startsWith (s p : jsstring) {struct p} : bool :=
  match p, s with
  | [], _ => true
  | x :: p', y :: s' => (x =? y) && startsWith s' p'
  | _ :: _, [] => false
  end.

(** No character of [s] is a line terminator, i.e. [s] matches [/^.*$/]. *)
Definition dot_star (s : jsstring) : bool := forallb (fun c => negb (is_line_terminator c)) s.

(** [s.split(/\r?\n/)].  A carriage return belongs to the separator only
    when a line feed follows it; the result always has at least one piece. *)
Definition push_front (c : char) (ls : list jsstring) : list jsstring :=
  match ls with
  | [] => [[c]]
  | l :: ls' => (c :: l) :: ls'
  end.

Fixpoint split_lines (s : jsstring) : list jsstring :=
  match s with
  | [] => [[]]
  | c :: s' =>
      if c =? LF then [] :: split_lines s'
      else if (c =? CR) && startsWith s' [LF] then split_lines s'
      else push_front c (split_lines s')
  end.

(** [s.replace] with the global pattern that matches an apostrophe (39)
    and the replacement text made of one double quote (34). *)
Definition replace_quotes (s : jsstring) : jsstring :=
  map (fun c => if c =? 39 then 34 else c) s.

End JsString.
Export JsString.

(* ===================================================================== *)
(** ** Numbers *)
(* ===================================================================== *)

Module JsNumber.

(** A Number: [Finite neg m e] denotes [(-1)^neg * m * 10^e] (so that the
    two zeros are distinct). *)
Inductive number :=
| NaN
| Infinity (neg : bool)
| Finite (neg : bool) (mant : N) (exp10 : Z).

Definition isNaN (n : number) : bool :=
  match n with NaN => true | _ => false end.

Definition zero : number := Finite false 0 0.

Definition of_N (n : N) : number := Finite false n 0.

Definition digit_value (c : char) : N :=
  if is_digit c then c - 48
  else if is_upper c then c - 55
  else c - 87.

Definition digits_value (base : N) (ds : jsstring) : N :=
  fold_left (fun acc d => acc * base + digit_value d) ds 0.

Definition is_hex_digit (c : char) : bool :=
  is_digit c || ((65 <=? c) && (c <=? 70)) || ((97 <=? c) && (c <=? 102)).
Definition is_octal_digit (c : char) : bool := (48 <=? c) && (c <=? 55).
Definition is_binary_digit (c : char) : bool := (c =? 48) || (c =? 49).

Definition is_nil {A} (l : list A) : bool :=
  match l with [] => true | _ => false end.

(** [ExponentPart]: [e] or [E], an optional sign, one digit or more.
    Returns the exponent and the text after it. *)
Definition exponent_part (s : jsstring) : option (Z * jsstring) :=
  match s with
  | c :: r =>
      if (c =? 101) || (c =? 69) then
        let '(neg, r') :=
          match r with
          | d :: r1 => if d =? 43 then (false, r1)
                       else if d =? 45 then (true, r1) else (false, r)
          | [] => (false, r)
          end in
        let ds := take_while is_digit r' in
        if is_nil ds then None
        else
          let e := Z.of_N (digits_value 10 ds) in
          Some (if neg then (- e)%Z else e, drop_while is_digit r')
      else None
  | [] => None
  end.

(** The longest prefix of [s] that is a [StrUnsignedDecimalLiteral] other
    than [Infinity]: digits, an optional fraction, an optional exponent, at
    least one digit before the exponent. *)
Definition scan_unsigned (neg : bool) (s : jsstring) : option (number * jsstring) :=
  let ip := take_while is_digit s in
  let r1 := drop_while is_digit s in
  let '(fp, r2) :=
    match r1 with
    | c :: r => if c =? 46 then (take_while is_digit r, drop_while is_digit r)
                else ([], r1)
    | [] => ([], r1)
    end in
  if is_nil ip && is_nil fp then None
  else
    let m := digits_value 10 (ip ++ fp) in
    let e0 := (- Z.of_nat (length fp))%Z in
    match exponent_part r2 with
    | Some (e, r3) => Some (Finite neg m (e0 + e), r3)
    | None => Some (Finite neg m e0, r2)
    end.

(** The longest prefix of [s] that is a [StrDecimalLiteral]. *)
Definition scan_decimal (s : jsstring) : option (number * jsstring) :=
  let '(neg, r) :=
    match s with
    | c :: r1 => if c =? 43 then (false, r1)
                 else if c =? 45 then (true, r1) else (false, s)
    | [] => (false, s)
    end in
  if startsWith r (js "Infinity") then Some (Infinity neg, drop 8 r)
  else scan_unsigned neg r.

(** [NonDecimalIntegerLiteral]: [0x], [0o] or [0b] (either case) followed
    by one digit or more of that base and nothing else. *)
Definition non_decimal (s : jsstring) : option number :=
  match s with
  | z :: p :: ds =>
      if (z =? 48) && negb (is_nil ds) then
        if ((p =? 120) || (p =? 88)) && forallb is_hex_digit ds
        then Some (of_N (digits_value 16 ds))
        else if ((p =? 111) || (p =? 79)) && forallb is_octal_digit ds
        then Some (of_N (digits_value 8 ds))
        else if ((p =? 98) || (p =? 66)) && forallb is_binary_digit ds
        then Some (of_N (digits_value 2 ds))
        else None
      else None
  | _ => None
  end.

(** [Number(s)] on a string (StringToNumber): white space is stripped on
    both sides, the empty text is [+0], and text that is not wholly a
    numeric literal is [NaN]. *)
Definition Number (s : jsstring) : number :=
  let t := trim s in
  if is_nil t then zero
  else
    match non_decimal t with
    | Some n => n
    | None =>
        match scan_decimal t with
        | Some (n, []) => n
        | _ => NaN
        end
    end.

(** [parseFloat(s)]: leading white space is stripped and the longest
    decimal-literal prefix is read; [NaN] when there is none. *)
Definition parseFloat (s : jsstring) : number :=
  match scan_decimal (trimStart s) with
  | Some (n, _) => n
  | None => NaN
  end.

End JsNumber.
Export JsNumber.

(* ===================================================================== *)
(** ** Values and [JSON.parse] *)
(* ===================================================================== *)

Module Json.

(** The JavaScript values the parser can build.  An object built by
    [JSON.parse] is kept as its members in source order (a later member of
    the same name shadows an earlier one). *)
Inductive jsval :=
| JNull
| JBool (b : bool)
| JNum (n : number)
| JStr (s : jsstring)
| JArr (items : list jsval)
| JObj (members : list (jsstring * jsval)).

Inductive token :=
| TLBracket | TRBracket | TLBrace | TRBrace | TComma | TColon
| TString (s : jsstring)
| TScalar (v : jsval).

(** JSON white space: tab, line feed, carriage return, space. *)
Definition is_json_space (c : char) : bool :=
  (c =? 9) || (c =? 10) || (c =? 13) || (c =? 32).

(** The JSON number grammar: an optional minus sign; an integer part that
    is a single 0 or starts with a digit from 1 to 9; an optional fraction
    (a dot and one digit or more); an optional exponent. *)
Definition json_number (s : jsstring) : option number :=
  let '(neg, r) :=
    match s with
    | c :: r1 => if c =? 45 then (true, r1) else (false, s)
    | [] => (false, s)
    end in
  let ip := take_while is_digit r in
  let r1 := drop_while is_digit r in
  let int_ok :=
    match ip with
    | [] => false
    | [_] => true
    | d :: _ => negb (d =? 48)
    end in
  let frac :=
    match r1 with
    | c :: r' =>
        if c =? 46 then
          let fp := take_while is_digit r' in
          if is_nil fp then None else Some (fp, drop_while is_digit r')
        else Some ([], r1)
    | [] => Some ([], r1)
    end in
  if int_ok then
    match frac with
    | None => None
    | Some (fp, r2) =>
        let m := digits_value 10 (ip ++ fp) in
        let e0 := (- Z.of_nat (length fp))%Z in
        match r2 with
        | [] => Some (Finite neg m e0)
        | _ =>
            match exponent_part r2 with
            | Some (e, []) => Some (Finite neg m (e0 + e))
            | _ => None
            end
        end
    end
  else None.

Definition json_word (s : jsstring) : option jsval :=
  if string_eqb s (js "true") then Some (JBool true)
  else if string_eqb s (js "false") then Some (JBool false)
  else if string_eqb s (js "null") then Some JNull
  else None.

(** The scanner reads one character at a time.  The accumulators hold the
    characters read so far in reverse. *)
Inductive lex_state :=
| LIdle
| LNumber (acc : jsstring)
| LWord (acc : jsstring)
| LString (acc : jsstring)
| LEscape (acc : jsstring)
| LUnicode (acc : jsstring) (hex : jsstring).

Definition is_number_char (c : char) : bool :=
  is_digit c || (c =? 43) || (c =? 45) || (c =? 46) || (c =? 101) || (c =? 69).

(** The first character of a token, or white space between tokens. *)
Definition lex_start (c : char) : option (lex_state * list token) :=
  if is_json_space c then Some (LIdle, [])
  else if c =? 91 then Some (LIdle, [TLBracket])
  else if c =? 93 then Some (LIdle, [TRBracket])
  else if c =? 123 then Some (LIdle, [TLBrace])
  else if c =? 125 then Some (LIdle, [TRBrace])
  else if c =? 44 then Some (LIdle, [TComma])
  else if c =? 58 then Some (LIdle, [TColon])
  else if c =? 34 then Some (LString [], [])
  else if is_digit c || (c =? 45) then Some (LNumber [c], [])
  else if is_lower c then Some (LWord [c], [])
  else None.

Definition escape_char (c : char) : option char :=
  if (c =? 34) || (c =? 92) || (c =? 47) then Some c
  else if c =? 98 then Some 8
  else if c =? 102 then Some 12
  else if c =? 110 then Some 10
  else if c =? 114 then Some 13
  else if c =? 116 then Some 9
  else None.

Fixpoint lex (st : lex_state) (s : jsstring) (out : list token) : option (list token) :=
  match s with
  | [] =>
      match st with
      | LIdle => Some (rev out)
      | LNumber acc =>
          match json_number (rev acc) with
          | Some n => Some (rev (TScalar (JNum n) :: out))
          | None => None
          end
      | LWord acc =>
          match json_word (rev acc) with
          | Some v => Some (rev (TScalar v :: out))
          | None => None
          end
      | _ => None
      end
  | c :: s' =>
      match st with
      | LIdle =>
          match lex_start c with
          | Some (st', ts) => lex st' s' (ts ++ out)
          | None => None
          end
      | LNumber acc =>
          if is_number_char c then lex (LNumber (c :: acc)) s' out
          else
            match json_number (rev acc), lex_start c with
            | Some n, Some (st', ts) => lex st' s' (ts ++ TScalar (JNum n) :: out)
            | _, _ => None
            end
      | LWord acc =>
          if is_lower c then lex (LWord (c :: acc)) s' out
          else
            match json_word (rev acc), lex_start c with
            | Some v, Some (st', ts) => lex st' s' (ts ++ TScalar v :: out)
            | _, _ => None
            end
      | LString acc =>
          if c =? 34 then lex LIdle s' (TString (rev acc) :: out)
          else if c =? 92 then lex (LEscape acc) s' out
          else if c <? 32 then None
          else lex (LString (c :: acc)) s' out
      | LEscape acc =>
          if c =? 117 then lex (LUnicode acc []) s' out
          else
            match escape_char c with
            | Some d => lex (LString (d :: acc)) s' out
            | None => None
            end
      | LUnicode acc hex =>
          if is_hex_digit c then
            match hex with
            | [_; _; _] => lex (LString (digits_value 16 (rev (c :: hex)) :: acc)) s' out
            | _ => lex (LUnicode acc (c :: hex)) s' out
            end
          else None
      end
  end.

(** The containers still open, innermost first, with what they hold so far
    in reverse. *)
Inductive frame :=
| FArr (items : list jsval)
| FObj (members : list (jsstring * jsval)) (key : option jsstring).

Inductive expect :=
| ExpValue (may_close : bool)
| ExpKey (may_close : bool)
| ExpColon
| ExpNext.

Inductive pstate :=
| Parsing (stack : list frame) (e : expect)
| Complete (v : jsval).

(** A value has just been completed inside [stack]. *)
Definition push_value (v : jsval) (stack : list frame) : option pstate :=
  match stack with
  | [] => Some (Complete v)
  | FArr items :: st => Some (Parsing (FArr (v :: items) :: st) ExpNext)
  | FObj ms (Some k) :: st => Some (Parsing (FObj ((k, v) :: ms) None :: st) ExpNext)
  | FObj _ None :: _ => None
  end.

Definition parse_token (ps : pstate) (t : token) : option pstate :=
  match ps with
  | Complete _ => None
  | Parsing stack e =>
      match e, t with
      | ExpValue _, TLBracket => Some (Parsing (FArr [] :: stack) (ExpValue true))
      | ExpValue _, TLBrace => Some (Parsing (FObj [] None :: stack) (ExpKey true))
      | ExpValue _, TScalar v => push_value v stack
      | ExpValue _, TString s => push_value (JStr s) stack
      | ExpValue true, TRBracket =>
          match stack with
          | FArr [] :: st => push_value (JArr []) st
          | _ => None
          end
      | ExpKey _, TString k =>
          match stack with
          | FObj ms None :: st => Some (Parsing (FObj ms (Some k) :: st) ExpColon)
          | _ => None
          end
      | ExpKey true, TRBrace =>
          match stack with
          | FObj [] None :: st => push_value (JObj []) st
          | _ => None
          end
      | ExpColon, TColon => Some (Parsing stack (ExpValue false))
      | ExpNext, TComma =>
          match stack with
          | FArr _ :: _ => Some (Parsing stack (ExpValue false))
          | FObj _ None :: _ => Some (Parsing stack (ExpKey false))
          | _ => None
          end
      | ExpNext, TRBracket =>
          match stack with
          | FArr items :: st => push_value (JArr (rev items)) st
          | _ => None
          end
      | ExpNext, TRBrace =>
          match stack with
          | FObj ms None :: st => push_value (JObj (rev ms)) st
          | _ => None
          end
      | _, _ => None
      end
  end.

Fixpoint parse_tokens (ps : pstate) (ts : list token) : option jsval :=
  match ts with
  | [] => match ps with Complete v => Some v | Parsing _ _ => None end
  | t :: ts' =>
      match parse_token ps t with
      | Some ps' => parse_tokens ps' ts'
      | None => None
      end
  end.

(** The outermost open container is an array (or the value completed is
    one): what holds while the text after an opening bracket is parsed. *)
Definition is_array (v : jsval) : bool := match v with JArr _ => true | _ => false end.

Fixpoint bottom_array (stack : list frame) : bool :=
  match stack with
  | [] => false
  | [FArr _] => true
  | [FObj _ _] => false
  | _ :: st => bottom_array st
  end.

Definition array_rooted (ps : pstate) : bool :=
  match ps with
  | Complete v => is_array v
  | Parsing stack _ => bottom_array stack
  end.

(** [JSON.parse(s)]; [None] stands for the [SyntaxError] it throws. *)
Definition JSON_parse (s : jsstring) : option jsval :=
  match lex LIdle s [] with
  | Some ts => parse_tokens (Parsing [] (ExpValue false)) ts
  | None => None
  end.

End Json.
Export Json.

(* ===================================================================== *)
(** ** Objects *)
(* ===================================================================== *)

Module JsObject.

(** What an object inherits from.  [{}] starts at [Object.prototype]. *)
Inductive prototype :=
| ObjectPrototype
| ProtoNull
| ProtoValue (v : jsval).

(** A plain object: its own properties and its prototype slot. *)
Record jsobject := MkObject { own : gmap jsstring jsval; proto : prototype }.

Definition empty_object : jsobject := MkObject ∅ ObjectPrototype.

Definition proto_key : jsstring := js "__proto__".

Fixpoint has_member (k : jsstring) (ms : list (jsstring * jsval)) : bool :=
  match ms with
  | [] => false
  | (k', _) :: ms' => string_eqb k k' || has_member k ms'
  end.

(** Does a property lookup of [__proto__] that starts at prototype [p] end
    at the accessor of [Object.prototype]?  Arrays and objects made by
    [JSON.parse] inherit from [Object.prototype]; an object made by
    [JSON.parse] may carry a data property of that name, which shadows it. *)
Definition reaches_proto_accessor (p : prototype) : bool :=
  match p with
  | ObjectPrototype => true
  | ProtoNull => false
  | ProtoValue (JObj ms) => negb (has_member proto_key ms)
  | ProtoValue _ => true
  end.

(** The assignment [o[key] = v].  Every name but [__proto__] becomes (or
    updates) an own property.  For [__proto__] the inherited setter runs
    instead: an array, object or [null] replaces the prototype, any other
    value is ignored, and no own property is created. *)
Definition obj_set (o : jsobject) (key : jsstring) (v : jsval) : jsobject :=
  if string_eqb key proto_key && reaches_proto_accessor (proto o) then
    match v with
    | JNull => MkObject (own o) ProtoNull
    | JArr _ | JObj _ => MkObject (own o) (ProtoValue v)
    | _ => o
    end
  else MkObject (<[key := v]> (own o)) (proto o).

End JsObject.
Export JsObject.

(* ===================================================================== *)
(** ** The options parser: [parseYamlLike] *)
(* ===================================================================== *)

Module Options.

(** [line.match(re)] for the entry pattern of line 192, written here with
    blanks between its parts:  ^ ([A-Za-z0-9_-]+) : \s* (. * ) $  .  The
    result is the pair of groups (key, val).  The key is the longest run of
    key characters (a colon is not one); the white-space star takes all the
    white space after the colon, and what is left must be free of line
    terminators for the last group to reach the end of the line. *)
Definition entry_match (line : jsstring) : option (jsstring * jsstring) :=
  let key := take_while is_key_char line in
  match key, drop_while is_key_char line with
  | _ :: _, c :: r =>
      if c =? 58 then
        let val := drop_while is_space r in
        if dot_star val then Some (key, val) else None
      else None
  | _, _ => None
  end.

(** [line.match(/^\s*-\s+/)] of line 197 as a truth value. *)
Definition item_test (line : jsstring) : bool :=
  match drop_while is_space line with
  | d :: c :: _ => (d =? 45) && is_space c
  | _ => false
  end.

(** [line.match(re)] for the pattern of line 201, the pattern of line 197
    followed by a group of any characters up to the end of the line: the
    group, if the line matches. *)
Definition item_match (line : jsstring) : option jsstring :=
  match drop_while is_space line with
  | d :: c :: r =>
      if (d =? 45) && is_space c then
        let item := drop_while is_space r in
        if dot_star item then Some item else None
      else None
  | _ => None
  end.

(** The test of line 207: an opening bracket first, a closing bracket
    last, and no line terminator between them. *)
Definition bracket_test (s : jsstring) : bool :=
  match s with
  | o :: r =>
      (o =? 91) &&
      match rev r with
      | c :: m => (c =? 93) && dot_star m
      | [] => false
      end
  | [] => false
  end.

(** The inner [while] (lines 200-205): the items of the list block that
    starts at the cursor, and the lines after it. *)
Fixpoint collect_items (lines : list jsstring) : list jsstring * list jsstring :=
  match lines with
  | [] => ([], [])
  | l :: rest =>
      match item_match l with
      | Some item =>
          let '(arr, rest') := collect_items rest in (trim item :: arr, rest')
      | None => ([], lines)
      end
  end.

(** One turn of the outer [while] (lines 189-220) on the line under the
    cursor [l] and the lines after it [rest]: the lines left and the new
    [out]. *)
Definition step (l : jsstring) (rest : list jsstring) (out : jsobject)
  : list jsstring * jsobject :=
  let line := trimEnd l in
  if is_nil line || startsWith (trimStart line) (js "#") then (rest, out)
  else
    match entry_match line with
    | None => (rest, out)
    | Some (key, val) =>
        if is_nil val && match rest with l' :: _ => item_test l' | [] => false end then
          let '(arr, rest') := collect_items rest in
          (rest', obj_set out key (JArr (map JStr arr)))
        else if bracket_test (trim val) then
          match JSON_parse (replace_quotes val) with
          | Some v => (rest, obj_set out key v)
          | None => (rest, obj_set out key (JStr val))
          end
        else if string_eqb val (js "true") || string_eqb val (js "false") then
          (rest, obj_set out key (JBool (string_eqb val (js "true"))))
        else if negb (isNaN (Number val)) then
          (rest, obj_set out key (JNum (Number val)))
        else
          (rest, obj_set out key (JStr (trim val)))
    end.

(** The outer [while] (line 188).  The cursor [i] is kept as the lines from
    [i] on; [fuel] bounds the number of turns. *)
Fixpoint loop (fuel : nat) (lines : list jsstring) (out : jsobject) : option jsobject :=
  match lines with
  | [] => Some out
  | l :: rest =>
      match fuel with
      | O => None
      | S fuel' => let '(rest', out') := step l rest out in loop fuel' rest' out'
      end
  end.

(** The loop on the lines of a text, started with [out = {}] and with one
    turn of fuel per line. *)
Definition parse_lines (lines : list jsstring) : option jsobject :=
  loop (length lines) lines empty_object.

(** [parseYamlLike(src)].  [None] would mean that the fuel ran out; it
    never does ([parse_total]). *)
Definition parseYamlLike (src : jsstring) : option jsobject :=
  parse_lines (split_lines src).

(** The two halves of [step], named for the statements below: which entry,
    if any, the line under the cursor holds (lines 189-195), and what the
    branches do with it (lines 197-220). *)
Definition read_line (l : jsstring) : option (jsstring * jsstring) :=
  let line := trimEnd l in
  if is_nil line || startsWith (trimStart line) (js "#") then None
  else entry_match line.

Definition assign (key val : jsstring) (rest : list jsstring) (out : jsobject)
  : list jsstring * jsobject :=
  if is_nil val && match rest with l' :: _ => item_test l' | [] => false end then
    let '(arr, rest') := collect_items rest in
    (rest', obj_set out key (JArr (map JStr arr)))
  else if bracket_test (trim val) then
    match JSON_parse (replace_quotes val) with
    | Some v => (rest, obj_set out key v)
    | None => (rest, obj_set out key (JStr val))
    end
  else if string_eqb val (js "true") || string_eqb val (js "false") then
    (rest, obj_set out key (JBool (string_eqb val (js "true"))))
  else if negb (isNaN (Number val)) then
    (rest, obj_set out key (JNum (Number val)))
  else
    (rest, obj_set out key (JStr (trim val))).

(** The cursor and the object at some moment of the loop. *)
Definition config : Type := list jsstring * jsobject.

(** [reaches c c']: the loop started in [c] passes through [c']. *)
Inductive reaches : config -> config -> Prop :=
| reaches_here c : reaches c c
| reaches_turn l rest out c c' :
    step l rest out = c -> reaches c c' -> reaches (l :: rest, out) c'.

(** Two lines the parser cannot tell apart. *)
Definition same_reading (l1 l2 : jsstring) : Prop :=
  read_line l1 = read_line l2 /\ item_match l1 = item_match l2 /\
  item_test l1 = item_test l2.

(** ASCII lower case, to speak of spellings that differ in case only. *)
Definition to_lower (c : char) : char := if is_upper c then c + 32 else c.

(** The run of the outer loop as a relation: from the lines at the cursor
    and the current object to the object returned. *)
Inductive runs : list jsstring -> jsobject -> jsobject -> Prop :=
| runs_done out : runs [] out out
| runs_step l rest out rest' out' final :
    step l rest out = (rest', out') ->
    runs rest' out' final ->
    runs (l :: rest) out final.

(** The key of the entry a line holds, if it is an entry line. *)
Definition entry_key (l : jsstring) : option jsstring :=
  match entry_match (trimEnd l) with
  | Some (key, _) => Some key
  | None => None
  end.

(** [k] occurs in [t] as a contiguous piece of text. *)
Definition occurs_in (k t : jsstring) : Prop :=
  exists before after, t = before ++ k ++ after.

(** The shapes of the spec's Option Value. *)
Definition is_string (v : jsval) : bool := match v with JStr _ => true | _ => false end.
Definition is_number (v : jsval) : bool := match v with JNum _ => true | _ => false end.
Definition is_boolean (v : jsval) : bool := match v with JBool _ => true | _ => false end.
Definition is_string_array (v : jsval) : bool :=
  match v with JArr items => forallb is_string items | _ => false end.
Definition is_number_pair (v : jsval) : bool :=
  match v with JArr [JNum _; JNum _] => true | _ => false end.

Definition is_option_value (v : jsval) : bool :=
  is_string v || is_number v || is_boolean v || is_string_array v || is_number_pair v.

(** The shapes the code can store: a string, a number, a Boolean, or an
    array (of any length, with elements of any JSON type). *)
Definition is_stored_value (v : jsval) : bool :=
  is_string v || is_number v || is_boolean v || is_array v.

End Options.
Export Options.

(* ===================================================================== *)
(** ** The track extractor: [gpxToPolyline] *)
(* ===================================================================== *)

Module Dom.

(** A node of the parsed document: an element with its qualified name, its
    attributes and its child nodes, or character data. *)
Inductive node :=
| Element (name : jsstring) (attrs : list (jsstring * jsstring)) (children : list node)
| CharData (data : jsstring).

(** A document is the list of its child nodes. *)
Definition document := list node.

Definition name_matches (wanted name : jsstring) : bool :=
  string_eqb wanted (js "*") || string_eqb wanted name.

(** The elements named [wanted] in the subtree of [n], [n] included, in
    tree order (an element before its descendants, siblings left to right). *)
Fixpoint elements_named (wanted : jsstring) (n : node) : list node :=
  match n with
  | Element name _ children =>
      (if name_matches wanted name then [n] else []) ++
      (fix over (ns : list node) : list node :=
         match ns with
         | [] => []
         | c :: ns' => elements_named wanted c ++ over ns'
         end) children
  | CharData _ => []
  end.

(** [xml.getElementsByTagName(wanted)], as an array. *)
Definition getElementsByTagName (xml : document) (wanted : jsstring) : list node :=
  concat (map (elements_named wanted) xml).

(** [pt.getAttribute(name)]; [None] is [null]. *)
Fixpoint lookup_attr (name : jsstring) (attrs : list (jsstring * jsstring)) : option jsstring :=
  match attrs with
  | [] => None
  | (k, v) :: attrs' => if string_eqb k name then Some v else lookup_attr name attrs'
  end.

Definition getAttribute (pt : node) (name : jsstring) : option jsstring :=
  match pt with
  | Element _ attrs _ => lookup_attr name attrs
  | CharData _ => None
  end.

(** The node reached from [n] by the child positions in [path]. *)
Fixpoint node_at (n : node) (path : list nat) : option node :=
  match path with
  | [] => Some n
  | i :: path' =>
      match n with
      | Element _ _ children =>
          match nth_error children i with
          | Some c => node_at c path'
          | None => None
          end
      | CharData _ => None
      end
  end.

(** The node of a document at a non-empty path. *)
Definition doc_node_at (xml : document) (path : list nat) : option node :=
  match path with
  | [] => None
  | i :: path' =>
      match nth_error xml i with
      | Some c => node_at c path'
      | None => None
      end
  end.

Definition is_element_named (wanted : jsstring) (n : node) : bool :=
  match n with
  | Element name _ _ => string_eqb wanted name
  | CharData _ => false
  end.

(** Document order on positions: an element comes before what is below
    it, and what is below a child comes before what is below the children
    to its right. *)
Fixpoint path_before (p q : list nat) : Prop :=
  match p, q with
  | [], _ :: _ => True
  | i :: p', j :: q' => (i < j)%nat \/ (i = j /\ path_before p' q')
  | _, [] => False
  end.

Section Numbering.

Variable f : node -> list (list nat).

(** The positions [f] finds in each node of [ns], behind the rank of the
    node, the first node having rank [i]. *)
Fixpoint number_children (i : nat) (ns : list node) : list (list nat) :=
  match ns with
  | [] => []
  | c :: ns' => map (cons i) (f c) ++ number_children (S i) ns'
  end.

End Numbering.

(** The positions of the elements named [wanted] in the subtree of [n],
    listed the way [elements_named] lists the elements. *)
Fixpoint paths_named (wanted : jsstring) (n : node) : list (list nat) :=
  match n with
  | Element name _ children =>
      (if name_matches wanted name then [[]] else []) ++
      number_children (paths_named wanted) 0 children
  | CharData _ => []
  end.

Definition doc_paths_named (xml : document) (wanted : jsstring) : list (list nat) :=
  number_children (paths_named wanted) 0 xml.

(** A track point: an element named [trkpt] with no track point below it. *)
Definition is_track_point (n : node) : Prop :=
  exists attrs children,
    n = Element (js "trkpt") attrs children /\
    getElementsByTagName children (js "trkpt") = [].

(** The element [<trkpt lat=... lon=.../>]. *)
Definition track_point (lat lon : jsstring) : node :=
  Element (js "trkpt") [(js "lat", lat); (js "lon", lon)] [].

(** A GPX document with one track whose segments hold the given nodes. *)
Definition trkseg (pts : list node) : node := Element (js "trkseg") [] pts.
Definition gpx_track (segments : list (list node)) : document :=
  [Element (js "gpx") [] [Element (js "trk") [] (map trkseg segments)]].

End Dom.
Export Dom.

Module Track.

(** The options object handed to [L.polyline]. *)
Record style := MkStyle { color : option jsstring }.
Record polyline_options :=
  MkOptions { weight : number; opacity : number; opt_color : option jsstring }.

(** [{ weight: 4, opacity: 0.9, ...style }]. *)
Definition options_of (s : style) : polyline_options :=
  MkOptions (Finite false 4 0) (Finite false 9 (-1)) (color s).

(** [a || "0"] on the result of [getAttribute]: [null] and the empty
    string are falsy. *)
Definition or_zero (a : option jsstring) : jsstring :=
  match a with
  | Some (c :: s) => c :: s
  | _ => js "0"
  end.

Definition latlng : Type := number * number.

(** The callback of [trkpts.map] (lines 246-250). *)
Definition point_of (pt : node) : latlng :=
  let lat := parseFloat (or_zero (getAttribute pt (js "lat"))) in
  let lon := parseFloat (or_zero (getAttribute pt (js "lon"))) in
  (lat, lon).

(** The number [n] is what is read from the attribute [a] of a track
    point: 0 when the attribute is missing or empty; otherwise what
    [parseFloat] makes of its text, which is [NaN] when the text has no
    numeric prefix. *)
Definition coordinate_read (a : option jsstring) (n : number) : Prop :=
  match a with
  | None | Some [] => n = zero
  | Some text =>
      n = parseFloat text /\ (scan_decimal (trimStart text) = None -> n = NaN)
  end.

Section Extractor.

(** What a collaborator throws, and what Leaflet returns. *)
Variable exn : Type.
Variable polyline : Type.

(** A computation that returns or throws. *)
Definition result (A : Type) : Type := exn + A.

Definition bind {A B} (r : result A) (k : A -> result B) : result B :=
  match r with
  | inl e => inl e
  | inr a => k a
  end.

(** [new DOMParser().parseFromString(text, mime)]. *)
Variable parseFromString : jsstring -> jsstring -> result document.
(** [L.polyline(latlngs, options)]. *)
Variable L_polyline : list latlng -> polyline_options -> result polyline.

(** A call of [console.error(message, e)]. *)
Definition diagnostic : Type := jsstring * exn.

(** The body of the [try] block (lines 242-251). *)
Definition try_body (gpxText : jsstring) (s : style) : result (option polyline) :=
  bind (parseFromString gpxText (js "application/xml")) (fun xml =>
  let trkpts := getElementsByTagName xml (js "trkpt") in
  if is_nil trkpts then inr None
  else
    let latlngs := map point_of trkpts in
    bind (L_polyline latlngs (options_of s)) (fun p => inr (Some p))).

(** [gpxToPolyline(gpxText, style)]: the value returned ([None] is
    [null]) and the diagnostics sent to the console. *)
Definition gpxToPolyline (gpxText : jsstring) (s : style)
  : option polyline * list diagnostic :=
  match try_body gpxText s with
  | inr r => (r, [])
  | inl e => (None, [(js "gpxToPolyline parse error", e)])
  end.

(** What the [catch] block does with [e]. *)
Definition caught (e : exn) : option polyline * list diagnostic :=
  (None, [(js "gpxToPolyline parse error", e)]).

End Extractor.

Arguments gpxToPolyline {exn polyline} parseFromString L_polyline gpxText s.
Arguments try_body {exn polyline} parseFromString L_polyline gpxText s.
Arguments caught {exn polyline} e.

(** The message of the [catch] block (line 253). *)
Definition parse_error_message : jsstring := js "gpxToPolyline parse error".

(** Collaborators for worked examples: a parser seen on one text, for which
    it returns the tree [xml], and a polyline that records what it is
    given. *)
Definition parser_returning (xml : document) : jsstring -> jsstring -> unit + document :=
  fun _ _ => inr xml.
Definition recording_polyline
  : list latlng -> polyline_options -> unit + (list latlng * polyline_options) :=
  fun pts o => inr (pts, o).

End Track.
Export Track.

(* ===================================================================== *)
(** ** More of the options parser *)
(* ===================================================================== *)

Module OptionsMore.

(** The value the branches of lines 197-220 assign for the value text
    [val] when the lines after the cursor are [rest]. *)
Definition entry_value (val : jsstring) (rest : list jsstring) : jsval :=
  if is_nil val && match rest with l' :: _ => item_test l' | [] => false end then
    JArr (map JStr (collect_items rest).1)
  else if bracket_test (trim val) then
    match JSON_parse (replace_quotes val) with
    | Some v => v
    | None => JStr val
    end
  else if string_eqb val (js "true") || string_eqb val (js "false") then
    JBool (string_eqb val (js "true"))
  else if negb (isNaN (Number val)) then JNum (Number val)
  else JStr (trim val).

(** The last entry line of [t] for [key] holds [val] and is followed by
    the lines [post]. *)
Definition last_entry (t key val : jsstring) (post : list jsstring) : Prop :=
  exists pre l,
    split_lines t = pre ++ l :: post /\
    entry_match (trimEnd l) = Some (key, val) /\
    forall l', l' ∈ post -> entry_key l' <> Some key.

(** No line of [t] is an entry line for [key]. *)
Definition no_entry (t key : jsstring) : Prop :=
  forall l, l ∈ split_lines t -> entry_key l <> Some key.

(** The text with every line feed turned into carriage return, line feed. *)
Definition to_crlf (t : jsstring) : jsstring :=
  concat (map (fun c => if c =? LF then [CR; LF] else [c]) t).

(** What every stored number and string satisfies: a number is not [NaN];
    a string is not empty and has no white space at either end. *)
Definition is_clean_value (v : jsval) : bool :=
  match v with
  | JNum n => negb (isNaN n)
  | JStr s => negb (is_nil s) && string_eqb (trim s) s
  | _ => true
  end.

End OptionsMore.
Export OptionsMore.

(* ===================================================================== *)
(** ** The tile address: [osRasterUrl] *)
(* ===================================================================== *)

Module Tiles.

(** The characters [encodeURIComponent] leaves as they are: letters,
    digits and  - _ . ! ~ * ' ( ) . *)
Definition is_unreserved (c : char) : bool :=
  is_upper c || is_lower c || is_digit c ||
  (c =? 45) || (c =? 95) || (c =? 46) || (c =? 33) || (c =? 126) ||
  (c =? 42) || (c =? 39) || (c =? 40) || (c =? 41).

Definition hex_digit (n : N) : char := if n <? 10 then 48 + n else 55 + n.

(** A percent sign and the two upper-case hexadecimal digits of an octet. *)
Definition percent (octet : N) : jsstring :=
  [37; hex_digit (octet / 16); hex_digit (octet mod 16)].

(** The UTF-8 octets of a code point. *)
Definition utf8 (cp : N) : list N :=
  if cp <? 128 then [cp]
  else if cp <? 2048 then [192 + cp / 64; 128 + cp mod 64]
  else if cp <? 65536 then
    [224 + cp / 4096; 128 + (cp / 64) mod 64; 128 + cp mod 64]
  else
    [240 + cp / 262144; 128 + (cp / 4096) mod 64; 128 + (cp / 64) mod 64;
     128 + cp mod 64].

Definition is_lead_surrogate (c : char) : bool := (55296 <=? c) && (c <=? 56319).
Definition is_trail_surrogate (c : char) : bool := (56320 <=? c) && (c <=? 57343).

Definition escape (cp : N) : jsstring := concat (map percent (utf8 cp)).

(** [encodeURIComponent(s)]; [None] stands for the [URIError] thrown at a
    surrogate code unit that has no partner. *)
Fixpoint encodeURIComponent (s : jsstring) : option jsstring :=
  match s with
  | [] => Some []
  | c :: s' =>
      if is_unreserved c then option_map (cons c) (encodeURIComponent s')
      else if is_trail_surrogate c then None
      else if is_lead_surrogate c then
        match s' with
        | d :: s'' =>
            if is_trail_surrogate d then
              option_map (app (escape (65536 + (c - 55296) * 1024 + (d - 56320))))
                         (encodeURIComponent s'')
            else None
        | [] => None
        end
      else option_map (app (escape c)) (encodeURIComponent s')
  end.

Definition url_prefix : jsstring := js "https://api.os.uk/maps/raster/v1/zxy/".
Definition url_middle : jsstring := js "/{z}/{x}/{y}.png?key=".

(** [osRasterUrl(style, apiKey)] (lines 44-46). *)
Definition osRasterUrl (style apiKey : jsstring) : option jsstring :=
  option_map (fun key => url_prefix ++ style ++ url_middle ++ key)
             (encodeURIComponent apiKey).

(** A string of 16-bit code units. *)
Definition is_utf16 (s : jsstring) : Prop := Forall (fun c => c < 65536) s.

(** A character that can stand in the value of a query parameter without
    ending it or starting another part of the address. *)
Definition is_query_safe (c : char) : bool := is_unreserved c || (c =? 37).

End Tiles.
Export Tiles.

(* ===================================================================== *)
(** ** File references: [resolveLink] *)
(* ===================================================================== *)

Module Links.

(** The two [replace] calls of line 227, for any marker: the pattern is
    the marker anchored at the start of the text, or at its end, and the
    replacement is the empty text, so the marker is cut off when it is
    there. *)
Definition strip_prefix (marker s : jsstring) : jsstring :=
  if startsWith s marker then drop (length marker) s else s.
Definition strip_suffix (marker s : jsstring) : jsstring :=
  rev (strip_prefix (rev marker) (rev s)).

(** Line 227. *)
Definition wikilink_of (linkOrWikilink : jsstring) : jsstring :=
  strip_suffix (js "]]") (strip_prefix (js "[[") linkOrWikilink).

(** What the vault holds under a path ([TAbstractFile]). *)
Inductive vault_entry :=
| TFile (path : jsstring)
| TFolder (path : jsstring).

Definition is_file (e : vault_entry) : bool :=
  match e with TFile _ => true | TFolder _ => false end.

Section Resolve.

(** [app.metadataCache.getFirstLinkpathDest] and
    [app.vault.getAbstractFileByPath]; [None] is [null]. *)
Variable getFirstLinkpathDest : jsstring -> jsstring -> option vault_entry.
Variable getAbstractFileByPath : jsstring -> option vault_entry.

(** [resolveLink(linkOrWikilink, sourcePath)] (lines 225-234). *)
Definition resolveLink (linkOrWikilink sourcePath : jsstring) : option vault_entry :=
  let wikilink := wikilink_of linkOrWikilink in
  match getFirstLinkpathDest wikilink sourcePath with
  | Some (TFile p) => Some (TFile p)
  | _ =>
      match getAbstractFileByPath wikilink with
      | Some (TFile p) => Some (TFile p)
      | _ => None
      end
  end.

End Resolve.

End Links.
Export Links.

(* ===================================================================== *)
(** ** Reading the options: the head of [renderOSMapBlock] *)
(* ===================================================================== *)

Module Render.

(** [ToBoolean] on a Number: the zeros and [NaN] are false.  A decimal
    other than 0 is a zero as a binary64 value when it is at most
    2^-1075, half the least positive value. *)
Definition rounds_to_zero (m : N) (e : Z) : bool :=
  (m =? 0) || ((e <? 0)%Z && (m * 2 ^ 1075 <=? 10 ^ Z.to_N (- e))).

Definition number_truthy (n : number) : bool :=
  match n with
  | NaN => false
  | Infinity _ => true
  | Finite _ m e => negb (rounds_to_zero m e)
  end.

(** [ToBoolean]. *)
Definition to_boolean (v : jsval) : bool :=
  match v with
  | JNull => false
  | JBool b => b
  | JNum n => number_truthy n
  | JStr s => negb (is_nil s)
  | JArr _ | JObj _ => true
  end.

(** The property names [renderOSMapBlock] reads from [opts]. *)
Inductive option_name :=
| Height | Style | ApiKey | Zoom | Center | ShowStartEnd
| ZoomFeatures | Fit | Gpx | GpxColor | Legend.

Definition name_of (n : option_name) : jsstring :=
  match n with
  | Height => js "height"
  | Style => js "style"
  | ApiKey => js "apiKey"
  | Zoom => js "zoom"
  | Center => js "center"
  | ShowStartEnd => js "showStartEnd"
  | ZoomFeatures => js "zoomFeatures"
  | Fit => js "fit"
  | Gpx => js "gpx"
  | GpxColor => js "gpxColor"
  | Legend => js "legend"
  end.

(** The member of that name an object made by [JSON.parse] holds; a later
    member of the same name shadows an earlier one. *)
Fixpoint lookup_member (k : jsstring) (ms : list (jsstring * jsval)) : option jsval :=
  match ms with
  | [] => None
  | (k', v) :: ms' =>
      match lookup_member k ms' with
      | Some w => Some w
      | None => if string_eqb k k' then Some v else None
      end
  end.

(** [opts.name] for one of the names above; [None] is [undefined].  An
    own property answers first.  None of these names is a property of
    [Object.prototype] or of [Array.prototype], and none is [length] or an
    index, so the chain of prototypes answers only when the prototype is
    an object made by [JSON.parse] that has such a member. *)
Definition get_option (opts : jsobject) (n : option_name) : option jsval :=
  match own opts !! name_of n with
  | Some v => Some v
  | None =>
      match proto opts with
      | ProtoValue (JObj ms) => lookup_member (name_of n) ms
      | _ => None
      end
  end.

(** [a ?? b]. *)
Definition nullish_or (a : option jsval) (b : jsval) : jsval :=
  match a with
  | None | Some JNull => b
  | Some v => v
  end.

(** [a === true] and [a !== false]. *)
Definition is_true (a : option jsval) : bool :=
  match a with Some (JBool true) => true | _ => false end.
Definition is_not_false (a : option jsval) : bool :=
  match a with Some (JBool false) => false | _ => true end.

(** The plugin settings (lines 22-27). *)
Record settings := MkSettings {
  osApiKey : jsstring;
  defaultStyle : jsstring;
  defaultCenter : number * number;
  defaultZoom : number
}.

(** Line 95: [opts.apiKey ?? this.settings.osApiKey]. *)
Definition api_key (opts : jsobject) (st : settings) : jsval :=
  nullish_or (get_option opts ApiKey) (JStr (osApiKey st)).

(** Line 101: [!apiKey], the test that ends the rendering with the notice
    that the key is missing. *)
Definition api_key_missing (opts : jsobject) (st : settings) : bool :=
  negb (to_boolean (api_key opts st)).

(** Line 98: [Boolean(opts.showStartEnd ?? true)]. *)
Definition showStartEnd (opts : jsobject) : bool :=
  to_boolean (nullish_or (get_option opts ShowStartEnd) (JBool true)).

(** Line 99: [opts.zoomFeatures === true || opts.fit === true]. *)
Definition fitToData (opts : jsobject) : bool :=
  is_true (get_option opts ZoomFeatures) || is_true (get_option opts Fit).

(** Line 125: [Array.isArray(opts.gpx) ? opts.gpx : (opts.gpx ? [opts.gpx] : [])]. *)
Definition gpxInputs (opts : jsobject) : list jsval :=
  match get_option opts Gpx with
  | Some (JArr items) => items
  | Some v => if to_boolean v then [v] else []
  | None => []
  end.

(** Line 161: [opts.legend !== false]. *)
Definition legend_shown (opts : jsobject) : bool :=
  is_not_false (get_option opts Legend).

End Render.
Export Render.

(* ===================================================================== *)
(** ** The settings tab: the [onChange] handlers *)
(* ===================================================================== *)

Module SettingsTab.

(** [s.split(sep)] for a separator of one character. *)
Fixpoint split_on (sep : char) (s : jsstring) : list jsstring :=
  match s with
  | [] => [[]]
  | c :: s' =>
      if c =? sep then [] :: split_on sep s'
      else push_front c (split_on sep s')
  end.

(** What a handler leaves behind: the settings, and whether it called
    [saveSettings]. *)
Definition outcome : Type := settings * bool.

(** The handler of the key field (lines 294-297). *)
Definition apiKey_onChange (v : jsstring) (st : settings) : outcome :=
  (MkSettings (trim v) (defaultStyle st) (defaultCenter st) (defaultZoom st), true).

(** The handler of the center field (lines 325-331). *)
Definition center_onChange (v : jsstring) (st : settings) : outcome :=
  let m := map (fun s => Number (trim s)) (split_on 44 v) in
  match m with
  | [a; b] =>
      if forallb (fun x => negb (isNaN x)) m then
        (MkSettings (osApiKey st) (defaultStyle st) (a, b) (defaultZoom st), true)
      else (st, false)
  | _ => (st, false)
  end.

(** The handler of the zoom field (lines 340-346). *)
Definition zoom_onChange (v : jsstring) (st : settings) : outcome :=
  let n := Number v in
  if negb (isNaN n) then
    (MkSettings (osApiKey st) (defaultStyle st) (defaultCenter st) n, true)
  else (st, false).

End SettingsTab.
Export SettingsTab.

(* ===================================================================== *)
(** * Properties *)
(* ===================================================================== *)

(** ** Text primitives *)

Lemma string_eqb_eq (a b : jsstring) : string_eqb a b = true <-> a = b.
Proof.
  revert b; induction a as [|x a IH]; intros [|y b]; simpl; try (split; congruence).
  rewrite andb_true_iff, N.eqb_eq, IH. split; [intros [-> ->]; reflexivity | intros [= -> ->]; auto].
Qed.

Lemma string_eqb_refl (a : jsstring) : string_eqb a a = true.
Proof. apply string_eqb_eq; reflexivity. Qed.

Lemma string_eqb_neq (a b : jsstring) : a <> b -> string_eqb a b = false.
Proof.
  intros H. destruct (string_eqb a b) eqn:E; [|reflexivity].
  apply string_eqb_eq in E. contradiction.
Qed.

Lemma take_drop_while (p : char -> bool) (s : jsstring) :
  take_while p s ++ drop_while p s = s.
Proof.
  induction s as [|c s IH]; simpl; [reflexivity|].
  destruct (p c); simpl; [rewrite IH|]; reflexivity.
Qed.

Lemma drop_while_suffix (p : char -> bool) (s : jsstring) :
  exists w, s = w ++ drop_while p s.
Proof. exists (take_while p s). symmetry. apply take_drop_while. Qed.

Lemma drop_while_head (p : char -> bool) (s : jsstring) c r :
  drop_while p s = c :: r -> p c = false.
Proof.
  induction s as [|x s IH]; simpl; [discriminate|].
  destruct (p x) eqn:E; [exact IH|]. intros [= <- <-]. exact E.
Qed.

Lemma trimEnd_prefix (s : jsstring) : exists w, s = trimEnd s ++ w.
Proof.
  unfold trimEnd. destruct (drop_while_suffix is_space (rev s)) as [w Hw].
  exists (rev w). rewrite <- rev_app_distr, <- Hw, rev_involutive. reflexivity.
Qed.

Lemma occurs_in_refl (s : jsstring) : occurs_in s s.
Proof. exists [], []. rewrite app_nil_r. reflexivity. Qed.

Lemma occurs_in_trans (a b c : jsstring) :
  occurs_in a b -> occurs_in b c -> occurs_in a c.
Proof.
  intros (p1 & q1 & ->) (p2 & q2 & ->).
  exists (p2 ++ p1), (q1 ++ q2). rewrite <- !app_assoc. reflexivity.
Qed.

Lemma occurs_in_cons (k : jsstring) c t : occurs_in k t -> occurs_in k (c :: t).
Proof. intros (p & q & ->). exists (c :: p), q. reflexivity. Qed.

(** The first piece of [split_lines t] starts [t]; the others lie in it. *)
Lemma split_lines_shape (t : jsstring) :
  exists l0 ls, split_lines t = l0 :: ls /\
    (exists q, t = l0 ++ q) /\ (forall l, l ∈ ls -> occurs_in l t).
Proof.
  induction t as [|c t (l0 & ls & E & (q & Hq) & Hls)]; cbn [split_lines].
  - exists [], []. repeat split; [exists []; reflexivity|]. intros l H. inversion H.
  - destruct (c =? LF).
    { exists [], (split_lines t). repeat split; [exists (c :: t); reflexivity|].
      intros l H. apply occurs_in_cons. rewrite E in H.
      apply elem_of_cons in H as [->|H]; [|apply Hls, H].
      exists [], q. exact Hq. }
    destruct ((c =? CR) && startsWith t [LF]) eqn:Ecr.
    { exists l0, ls. repeat split; [exact E| |].
      - (* the line feed follows at once, so the first piece is empty *)
        apply andb_true_iff in Ecr as [_ Hlf].
        destruct t as [|d t']; [discriminate|].
        change (startsWith (d :: t') [LF]) with ((LF =? d) && true) in Hlf.
        rewrite andb_true_r, N.eqb_sym in Hlf.
        change (split_lines (d :: t')) with
          (if d =? LF then [] :: split_lines t'
           else if (d =? CR) && startsWith t' [LF] then split_lines t'
           else push_front d (split_lines t')) in E.
        rewrite Hlf in E.
        injection E as <- _. exists (c :: d :: t'). reflexivity.
      - intros l H. apply occurs_in_cons, Hls, H. }
    rewrite E. simpl. exists (c :: l0), ls. repeat split.
    + exists q. simpl. rewrite <- Hq. reflexivity.
    + intros l H. apply occurs_in_cons, Hls, H.
Qed.

(** Every piece of [split_lines t] is a piece of [t]. *)
Lemma split_lines_occurs (t l : jsstring) :
  l ∈ split_lines t -> occurs_in l t.
Proof.
  destruct (split_lines_shape t) as (l0 & ls & E & (q & Hq) & Hls).
  rewrite E. intros [->|H]%elem_of_cons; [|apply Hls, H].
  exists [], q. exact Hq.
Qed.

(** ** The scanning patterns *)

Lemma entry_match_key (line key val : jsstring) :
  entry_match line = Some (key, val) ->
  key = take_while is_key_char line /\ key <> [] /\
  exists r, line = key ++ 58 :: r /\ val = drop_while is_space r /\ dot_star val = true.
Proof.
  unfold entry_match. intros H.
  pose proof (take_drop_while is_key_char line) as Hsplit.
  destruct (take_while is_key_char line) as [|k0 ks] eqn:Ek; [discriminate|].
  destruct (drop_while is_key_char line) as [|c r] eqn:Ed; [discriminate|].
  destruct (c =? 58) eqn:Ec; [|discriminate].
  destruct (dot_star (drop_while is_space r)) eqn:Edot; [|discriminate].
  injection H as <- <-. apply N.eqb_eq in Ec as ->.
  split; [reflexivity|]. split; [discriminate|].
  exists r. split; [symmetry; exact Hsplit|]. split; [reflexivity | exact Edot].
Qed.

Lemma entry_match_val_head (line key val : jsstring) c r :
  entry_match line = Some (key, val) -> val = c :: r -> is_space c = false.
Proof.
  intros (_ & _ & r0 & _ & Hv & _)%entry_match_key ->.
  symmetry in Hv. exact (drop_while_head _ _ _ _ Hv).
Qed.

(** A line that opens with a character outside the key class is no entry. *)
Lemma entry_match_first (c : char) (s : jsstring) :
  is_key_char c = false -> entry_match (c :: s) = None.
Proof. intros H. unfold entry_match. simpl. rewrite H. reflexivity. Qed.

(** The key of an entry line is a piece of the line. *)
Lemma entry_key_occurs (l key : jsstring) :
  entry_key l = Some key -> occurs_in key l.
Proof.
  unfold entry_key. destruct (entry_match (trimEnd l)) as [[k v]|] eqn:E; [|discriminate].
  intros [= ->]. apply entry_match_key in E as (_ & _ & r & Hl & _).
  destruct (trimEnd_prefix l) as [w Hw].
  exists [], (58 :: r ++ w). simpl. rewrite Hw at 1. rewrite Hl.
  rewrite <- app_assoc. reflexivity.
Qed.

(** The key of an entry line sits at the start of the line. *)
Lemma entry_key_starts (l key : jsstring) :
  entry_key l = Some key -> exists s, l = key ++ 58 :: s.
Proof.
  unfold entry_key. destruct (entry_match (trimEnd l)) as [[k v]|] eqn:E; [|discriminate].
  intros [= ->]. apply entry_match_key in E as (_ & _ & r & Hl & _).
  destruct (trimEnd_prefix l) as [w Hw].
  exists (r ++ w). rewrite Hw at 1. rewrite Hl, <- app_assoc. reflexivity.
Qed.

(** ** The loop of the options parser *)

Lemma collect_items_suffix (lines : list jsstring) arr rest :
  collect_items lines = (arr, rest) -> exists pre, lines = pre ++ rest.
Proof.
  revert arr rest; induction lines as [|l ls IH]; intros arr rest; simpl.
  - intros [= <- <-]. exists []. reflexivity.
  - destruct (item_match l); [|intros [= <- <-]; exists []; reflexivity].
    destruct (collect_items ls) as [arr' rest'] eqn:E. intros [= <- <-].
    destruct (IH _ _ eq_refl) as [pre ->]. exists (l :: pre). reflexivity.
Qed.

(** What a turn of the loop can do: it leaves [out] alone, or it assigns
    to the key of the line under the cursor; the cursor moves forward. *)
Lemma step_cases (l : jsstring) (rest : list jsstring) (out : jsobject) rest' out' :
  step l rest out = (rest', out') ->
  (exists pre, rest = pre ++ rest') /\
  (out' = out \/ exists key v, entry_key l = Some key /\ out' = obj_set out key v).
Proof.
  unfold step, entry_key.
  destruct (is_nil (trimEnd l) || startsWith (trimStart (trimEnd l)) (js "#")).
  { intros [= <- <-]. split; [exists []; reflexivity | left; reflexivity]. }
  destruct (entry_match (trimEnd l)) as [[key val]|].
  2:{ intros [= <- <-]. split; [exists []; reflexivity | left; reflexivity]. }
  destruct (is_nil val && _).
  { destruct (collect_items rest) as [arr r] eqn:E. intros [= <- <-].
    split; [eapply collect_items_suffix, E | right; eauto]. }
  destruct (bracket_test (trim val)).
  { destruct (JSON_parse (replace_quotes val)); intros [= <- <-];
      (split; [exists []; reflexivity | right; eauto]). }
  destruct (string_eqb val (js "true") || string_eqb val (js "false")).
  { intros [= <- <-]. split; [exists []; reflexivity | right; eauto]. }
  destruct (negb (isNaN (Number val))); intros [= <- <-];
    (split; [exists []; reflexivity | right; eauto]).
Qed.

Lemma step_length (l : jsstring) (rest : list jsstring) (out : jsobject) rest' out' :
  step l rest out = (rest', out') -> (length rest' <= length rest)%nat.
Proof.
  intros [[pre ->] _]%step_cases. rewrite length_app. lia.
Qed.

(** One turn per line is enough fuel, and the loop then computes the run. *)
Lemma loop_runs (fuel : nat) (lines : list jsstring) (out : jsobject) :
  (length lines <= fuel)%nat ->
  exists final, loop fuel lines out = Some final /\ runs lines out final.
Proof.
  revert lines out; induction fuel as [|fuel IH]; intros [|l rest] out Hlen; simpl in *.
  - exists out. split; [reflexivity | constructor].
  - lia.
  - exists out. split; [reflexivity | constructor].
  - destruct (step l rest out) as [rest' out'] eqn:E.
    destruct (IH rest' out') as (final & Hloop & Hruns).
    { apply step_length in E. lia. }
    exists final. split; [exact Hloop | econstructor; eassumption].
Qed.

Lemma runs_deterministic (lines : list jsstring) (out f1 f2 : jsobject) :
  runs lines out f1 -> runs lines out f2 -> f1 = f2.
Proof.
  intros H1; revert f2; induction H1 as [out|l rest out rest' out' final E _ IH];
    intros f2 H2; inversion H2; subst; [reflexivity|].
  match goal with H : step l rest out = _ |- _ => rewrite E in H; injection H as <- <- end.
  apply IH. assumption.
Qed.

Lemma parseYamlLike_runs (src : jsstring) (out : jsobject) :
  parseYamlLike src = Some out <-> runs (split_lines src) empty_object out.
Proof.
  unfold parseYamlLike, parse_lines.
  destruct (loop_runs (length (split_lines src)) (split_lines src) empty_object)
    as (final & Hloop & Hruns); [lia|].
  rewrite Hloop. split.
  - intros [= <-]. exact Hruns.
  - intros H. f_equal. eapply runs_deterministic; eassumption.
Qed.

(** ** Own properties after an assignment *)

Lemma obj_set_own_keys (o : jsobject) (key k : jsstring) (v : jsval) :
  is_Some (own (obj_set o key v) !! k) -> is_Some (own o !! k) \/ k = key.
Proof.
  unfold obj_set.
  destruct (string_eqb key proto_key && reaches_proto_accessor (proto o)).
  - destruct v; simpl; auto.
  - simpl. destruct (decide (key = k)) as [->|Hne]; [auto|].
    rewrite lookup_insert_ne by exact Hne. auto.
Qed.

Lemma obj_set_own_values (o : jsobject) (key k : jsstring) (v w : jsval) :
  own (obj_set o key v) !! k = Some w -> own o !! k = Some w \/ w = v.
Proof.
  unfold obj_set.
  destruct (string_eqb key proto_key && reaches_proto_accessor (proto o)).
  - destruct v; simpl; auto.
  - simpl. destruct (decide (key = k)) as [->|Hne].
    + rewrite lookup_insert_eq. intros [= ->]. auto.
    + rewrite lookup_insert_ne by exact Hne. auto.
Qed.

Lemma obj_set_lookup (o : jsobject) (key : jsstring) (v : jsval) :
  key <> proto_key -> own (obj_set o key v) !! key = Some v.
Proof.
  intros Hne. unfold obj_set. rewrite (string_eqb_neq _ _ Hne). simpl.
  apply lookup_insert_eq.
Qed.

Lemma obj_set_lookup_ne (o : jsobject) (key k : jsstring) (v : jsval) :
  k <> key -> own (obj_set o key v) !! k = own o !! k.
Proof.
  intros Hne. unfold obj_set.
  destruct (string_eqb key proto_key && reaches_proto_accessor (proto o)).
  - destruct v; reflexivity.
  - simpl. apply lookup_insert_ne. congruence.
Qed.

(** Every own key of the result was there at the start or is the key of an
    entry line the run went over. *)
Lemma runs_keys (lines : list jsstring) (out final : jsobject) :
  runs lines out final ->
  forall k, is_Some (own final !! k) ->
    is_Some (own out !! k) \/ exists l, l ∈ lines /\ entry_key l = Some k.
Proof.
  induction 1 as [out|l rest out rest' out' final E _ IH]; intros k Hk; [auto|].
  apply step_cases in E as [[pre ->] Hout].
  destruct (IH k Hk) as [Hin|(l' & Hl' & Hkey)].
  - destruct Hout as [->|(key & v & Hkey & ->)]; [auto|].
    apply obj_set_own_keys in Hin as [Hin| ->]; [auto|].
    right. exists l. split; [left | exact Hkey].
  - right. exists l'. split; [|exact Hkey].
    right. apply elem_of_app. right. exact Hl'.
Qed.

(** ** [JSON.parse] on a text that opens with a bracket *)

Lemma lex_keeps_output (s : jsstring) : forall st out ts,
  lex st s out = Some ts -> exists ts', ts = rev out ++ ts'.
Proof.
  induction s as [|c s IH]; intros st out ts H.
  - destruct st; simpl in H; try discriminate.
    + injection H as <-. exists []. rewrite app_nil_r. reflexivity.
    + destruct (json_number (rev acc)); [|discriminate]. injection H as <-.
      simpl. eauto.
    + destruct (json_word (rev acc)); [|discriminate]. injection H as <-.
      simpl. eauto.
  - assert (Hmore : forall st' pre, lex st' s (pre ++ out) = Some ts ->
                                    exists ts', ts = rev out ++ ts').
    { intros st' pre H'. apply IH in H' as [ts' ->].
      rewrite rev_app_distr, <- app_assoc. eauto. }
    pose proof (fun st' => Hmore st' []) as Hsame. simpl in Hsame.
    pose proof (fun st' x => Hmore st' [x]) as Hone. simpl in Hone.
    destruct st; cbn [lex] in H.
    + destruct (lex_start c) as [[st' pre]|]; [eauto | discriminate].
    + destruct (is_number_char c); [eauto|].
      destruct (json_number (rev acc)); [|discriminate].
      destruct (lex_start c) as [[st' pre]|]; [|discriminate].
      apply (Hmore st' (pre ++ [TScalar (JNum n)])). rewrite <- app_assoc. exact H.
    + destruct (is_lower c); [eauto|].
      destruct (json_word (rev acc)); [|discriminate].
      destruct (lex_start c) as [[st' pre]|]; [|discriminate].
      apply (Hmore st' (pre ++ [TScalar j])). rewrite <- app_assoc. exact H.
    + destruct (c =? 34); [eauto|]. destruct (c =? 92); [eauto|].
      destruct (c <? 32); [discriminate | eauto].
    + destruct (c =? 117); [eauto|]. destruct (escape_char c); [eauto | discriminate].
    + destruct (is_hex_digit c); [|discriminate].
      destruct hex as [|? [|? [|? [|? ?]]]]; eauto.
Qed.

Lemma lex_bracket_first (r : jsstring) (ts : list token) :
  lex LIdle (91 :: r) [] = Some ts -> exists ts', ts = TLBracket :: ts'.
Proof.
  change (lex LIdle (91 :: r) []) with (lex LIdle r [TLBracket]).
  intros [ts' ->]%lex_keeps_output. exists ts'. reflexivity.
Qed.

Lemma push_value_rooted (v : jsval) (stack : list frame) (ps : pstate) :
  (stack = [] -> is_array v = true) ->
  (stack <> [] -> bottom_array stack = true) ->
  push_value v stack = Some ps -> array_rooted ps = true.
Proof.
  intros Hnil Hcons. destruct stack as [|[items|ms [k|]] st]; simpl.
  - intros [= <-]. simpl. auto.
  - intros [= <-]. specialize (Hcons ltac:(discriminate)).
    destruct st; [reflexivity | exact Hcons].
  - intros [= <-]. specialize (Hcons ltac:(discriminate)).
    destruct st; [discriminate | exact Hcons].
  - discriminate.
Qed.

Lemma bottom_array_tail (f : frame) (st : list frame) :
  bottom_array (f :: st) = true -> st <> [] -> bottom_array st = true.
Proof. destruct st; [congruence|]. destruct f; simpl; auto. Qed.

Lemma bottom_array_push (f : frame) (st : list frame) :
  bottom_array st = true -> bottom_array (f :: st) = true.
Proof. destruct st; [discriminate|]. destruct f; simpl; auto. Qed.

Lemma parse_token_rooted (ps ps' : pstate) (t : token) :
  array_rooted ps = true -> parse_token ps t = Some ps' -> array_rooted ps' = true.
Proof.
  destruct ps as [stack e|v]; [|discriminate]. simpl. intros Hb H.
  assert (Hval : forall v, push_value v stack = Some ps' -> array_rooted ps' = true).
  { intros v. apply push_value_rooted; [|auto]. intros ->. discriminate. }
  assert (Hclose : forall f st v, stack = f :: st ->
            (st = [] -> is_array v = true) ->
            push_value v st = Some ps' -> array_rooted ps' = true).
  { intros f st v -> Hv. apply push_value_rooted; [exact Hv|].
    intros Hne. eapply bottom_array_tail; eassumption. }
  destruct e as [[|]|[|]| |], t; simpl in H; try discriminate; eauto;
    try (injection H as <-; simpl; apply bottom_array_push; exact Hb).
  all: destruct stack as [|[items|ms [k|]] st]; try discriminate.
  all: try (destruct items; try discriminate).
  all: try (destruct ms; try discriminate).
  all: try (injection H as <-; exact Hb).
  all: try (eapply Hclose; [reflexivity| |exact H]; try reflexivity).
  all: try (intros ->; discriminate).
Qed.

Lemma parse_tokens_rooted (ts : list token) : forall ps v,
  array_rooted ps = true -> parse_tokens ps ts = Some v -> is_array v = true.
Proof.
  induction ts as [|t ts IH]; intros ps v Hb; simpl.
  - destruct ps; [discriminate|]. intros [= <-]. exact Hb.
  - destruct (parse_token ps t) as [ps'|] eqn:E; [|discriminate].
    apply IH. eapply parse_token_rooted; eassumption.
Qed.

(** What [JSON.parse] returns for a text that opens with a bracket is an
    array. *)
Lemma JSON_parse_bracket (r : jsstring) (v : jsval) :
  JSON_parse (91 :: r) = Some v -> is_array v = true.
Proof.
  unfold JSON_parse. destruct (lex LIdle (91 :: r) []) as [ts|] eqn:E; [|discriminate].
  apply lex_bracket_first in E as [ts' ->]. simpl.
  apply parse_tokens_rooted. reflexivity.
Qed.

(** ** Reading a line *)

Lemma key_char_range (c : char) : is_key_char c = true -> 45 <= c <= 122.
Proof.
  unfold is_key_char, is_upper, is_lower, is_digit.
  rewrite !orb_true_iff, !andb_true_iff, !N.leb_le, !N.eqb_eq. lia.
Qed.

Lemma range_not_space (c : char) : 33 <= c <= 159 -> is_space c = false.
Proof.
  intros H. unfold is_space.
  repeat match goal with
  | |- context [c =? ?n] => rewrite (proj2 (N.eqb_neq c n)) by lia
  end.
  rewrite (proj2 (N.leb_gt 8192 c)) by lia. reflexivity.
Qed.

Lemma key_char_not_space (c : char) : is_key_char c = true -> is_space c = false.
Proof. intros H%key_char_range. apply range_not_space. lia. Qed.

Lemma take_while_head (p : char -> bool) (s : jsstring) c r :
  take_while p s = c :: r -> p c = true /\ exists s', s = c :: s'.
Proof.
  destruct s as [|x s]; simpl; [discriminate|].
  destruct (p x) eqn:E; [|discriminate]. intros [= <- <-]. eauto.
Qed.

(** An entry line starts with a key character, which begins its key. *)
Lemma entry_match_head (line key val : jsstring) :
  entry_match line = Some (key, val) ->
  exists c s ks, line = c :: s /\ key = c :: ks /\ is_key_char c = true.
Proof.
  intros (Hk & Hne & _)%entry_match_key.
  destruct key as [|c ks]; [congruence|].
  symmetry in Hk. apply take_while_head in Hk as [Hc [s ->]].
  exists c, s, ks. auto.
Qed.

Lemma step_read (l : jsstring) (rest : list jsstring) (out : jsobject) :
  step l rest out =
  match read_line l with
  | Some (key, val) => assign key val rest out
  | None => (rest, out)
  end.
Proof.
  unfold step, read_line, assign.
  destruct (is_nil (trimEnd l) || startsWith (trimStart (trimEnd l)) (js "#"));
    [reflexivity|].
  destruct (entry_match (trimEnd l)) as [[key val]|]; reflexivity.
Qed.

(** An entry line is neither blank nor a comment, so it is read as the
    entry it holds. *)
Lemma read_line_entry (l key val : jsstring) :
  entry_match (trimEnd l) = Some (key, val) -> read_line l = Some (key, val).
Proof.
  intros H. unfold read_line.
  destruct (entry_match_head _ _ _ H) as (c & s & ks & Hl & _ & Hc).
  rewrite Hl. unfold trimStart. simpl drop_while.
  rewrite (key_char_not_space c Hc). simpl is_nil.
  change (startsWith (c :: s) (js "#")) with ((35 =? c) && true).
  apply key_char_range in Hc.
  rewrite (proj2 (N.eqb_neq 35 c)) by lia. simpl. rewrite <- Hl. exact H.
Qed.

Lemma step_entry (l key val : jsstring) (rest : list jsstring) (out : jsobject) :
  entry_match (trimEnd l) = Some (key, val) ->
  step l rest out = assign key val rest out.
Proof. intros H. rewrite step_read, (read_line_entry _ _ _ H). reflexivity. Qed.

(** An entry line is not a list-item line. *)
Lemma entry_not_item (l key val : jsstring) :
  entry_match (trimEnd l) = Some (key, val) ->
  item_match l = None /\ item_test l = false.
Proof.
  intros H. destruct (trimEnd_prefix l) as [w Hw].
  pose proof (entry_match_key _ _ _ H) as (Hk & Hne & r & Hline & _).
  destruct (entry_match_head _ _ _ H) as (c & s & ks & Hl & -> & Hc).
  assert (Hl2 : l = c :: (ks ++ 58 :: r ++ w)).
  { rewrite Hw, Hline. simpl. rewrite <- app_assoc. reflexivity. }
  assert (Hnext : forall d x, ks ++ 58 :: r ++ w = d :: x -> is_space d = false).
  { intros d x Hd. destruct ks as [|k1 ks'].
    - injection Hd as <- _. reflexivity.
    - injection Hd as <- _. apply key_char_not_space.
      rewrite Hl in Hk. simpl in Hk. rewrite Hc in Hk.
      injection Hk as Hk. symmetry in Hk. apply take_while_head in Hk as [Hk _].
      exact Hk. }
  unfold item_match, item_test. rewrite Hl2. simpl drop_while.
  rewrite (key_char_not_space c Hc).
  destruct (ks ++ 58 :: r ++ w) as [|d x] eqn:E; [split; reflexivity|].
  rewrite (Hnext d x eq_refl), andb_false_r. split; reflexivity.
Qed.

(** ** Where the cursor goes *)

(** A list block stops at or before a line that is not a list item. *)
Lemma collect_items_stops (pre post : list jsstring) (l : jsstring) arr rest :
  item_match l = None ->
  collect_items (pre ++ l :: post) = (arr, rest) ->
  exists pre', rest = pre' ++ l :: post /\ (length pre' <= length pre)%nat.
Proof.
  intros Hl. revert arr rest; induction pre as [|p pre IH]; intros arr rest; simpl.
  - rewrite Hl. intros [= <- <-]. exists []. split; [reflexivity | simpl; lia].
  - destruct (item_match p).
    + destruct (collect_items (pre ++ l :: post)) as [arr' rest'] eqn:E.
      intros [= <- <-]. destruct (IH _ _ eq_refl) as (pre' & -> & Hlen).
      exists pre'. split; [reflexivity | lia].
    + intros [= <- <-]. exists (p :: pre). split; [reflexivity | simpl; lia].
Qed.

Lemma assign_stops (key val : jsstring) (pre post : list jsstring) (l : jsstring)
    (out : jsobject) rest out' :
  item_match l = None ->
  assign key val (pre ++ l :: post) out = (rest, out') ->
  exists pre', rest = pre' ++ l :: post /\ (length pre' <= length pre)%nat.
Proof.
  intros Hl. unfold assign.
  destruct (is_nil val && _).
  { destruct (collect_items (pre ++ l :: post)) as [arr r] eqn:E. intros [= <- <-].
    eapply collect_items_stops; eassumption. }
  assert (Hsame : exists pre', pre ++ l :: post = pre' ++ l :: post /\
                               (length pre' <= length pre)%nat) by (exists pre; auto).
  destruct (bracket_test (trim val)).
  { destruct (JSON_parse (replace_quotes val)); intros [= <- <-]; exact Hsame. }
  destruct (string_eqb val (js "true") || string_eqb val (js "false")).
  { intros [= <- <-]; exact Hsame. }
  destruct (negb (isNaN (Number val))); intros [= <- <-]; exact Hsame.
Qed.

Lemma step_stops (p : jsstring) (pre post : list jsstring) (l : jsstring)
    (out : jsobject) rest out' :
  item_match l = None ->
  step p (pre ++ l :: post) out = (rest, out') ->
  exists pre', rest = pre' ++ l :: post /\ (length pre' <= length pre)%nat.
Proof.
  intros Hl. rewrite step_read. destruct (read_line p) as [[key val]|].
  - apply assign_stops, Hl.
  - intros [= <- <-]. exists pre. auto.
Qed.

(** The cursor comes to rest on every line that is not a list item. *)
Lemma reaches_line (pre post : list jsstring) (l : jsstring) (out : jsobject) :
  item_match l = None ->
  exists mid, reaches (pre ++ l :: post, out) (l :: post, mid).
Proof.
  intros Hl. remember (length pre) as n eqn:Hn.
  revert pre out Hn. induction n as [n IH] using lt_wf_ind. intros pre out Hn.
  destruct pre as [|p pre]; simpl.
  - exists out. constructor.
  - destruct (step p (pre ++ l :: post) out) as [rest out'] eqn:E.
    destruct (step_stops _ _ _ _ _ _ _ Hl E) as (pre' & -> & Hlen).
    destruct (IH (length pre') ltac:(simpl in Hn; lia) pre' out' eq_refl) as [mid Hmid].
    exists mid. econstructor; eassumption.
Qed.

Lemma reaches_runs (c c' : config) (final : jsobject) :
  reaches c c' -> runs c.1 c.2 final -> runs c'.1 c'.2 final.
Proof.
  induction 1 as [c|l rest out c c' E _ IH]; [auto|].
  simpl. intros H. inversion H; subst. apply IH.
  match goal with H : step l rest out = _ |- _ => rewrite H end. assumption.
Qed.

(** Lines that hold no entry for [key] leave its binding as it is. *)
Lemma runs_preserves (lines : list jsstring) (out final : jsobject) (key : jsstring) :
  runs lines out final ->
  (forall l, l ∈ lines -> entry_key l <> Some key) ->
  own final !! key = own out !! key.
Proof.
  induction 1 as [out|l rest out rest' out' final E _ IH]; intros Hno; [reflexivity|].
  apply step_cases in E as [[pre ->] Hout].
  rewrite IH.
  - destruct Hout as [->|(k & v & Hk & ->)]; [reflexivity|].
    apply obj_set_lookup_ne. intros ->. eapply Hno; [left | exact Hk].
  - intros l' Hl'. apply Hno. right. apply elem_of_app. right. exact Hl'.
Qed.

(** The result when the line under the cursor sets [key] for the last time. *)
Lemma last_assignment (t : jsstring) (pre post : list jsstring) (l key : jsstring)
    (mid : jsobject) (v : jsval) :
  split_lines t = pre ++ l :: post ->
  reaches (split_lines t, empty_object) (l :: post, mid) ->
  step l post mid = (post, obj_set mid key v) ->
  key <> proto_key ->
  (forall l', l' ∈ post -> entry_key l' <> Some key) ->
  exists final, parseYamlLike t = Some final /\ own final !! key = Some v.
Proof.
  intros Ht Hreach Hstep Hkey Hlast.
  destruct (loop_runs (length (split_lines t)) (split_lines t) empty_object)
    as (final & Hloop & Hruns); [lia|].
  exists final. split; [exact Hloop|].
  apply (reaches_runs _ _ final Hreach) in Hruns. simpl in Hruns.
  inversion Hruns; subst.
  match goal with H : step l post mid = (?r, ?o) |- _ =>
    rewrite Hstep in H; injection H as <- <- end.
  erewrite runs_preserves by eassumption.
  apply obj_set_lookup, Hkey.
Qed.

(** ** Lines the parser cannot tell apart *)

Lemma collect_items_same (ls1 ls2 : list jsstring) :
  Forall2 same_reading ls1 ls2 ->
  (collect_items ls1).1 = (collect_items ls2).1 /\
  Forall2 same_reading (collect_items ls1).2 (collect_items ls2).2.
Proof.
  induction 1 as [|l1 l2 ls1 ls2 Hl Hls IH]; simpl; [auto|].
  pose proof Hl as (_ & Hitem & _).
  rewrite Hitem. destruct (item_match l2).
  - destruct (collect_items ls1), (collect_items ls2). simpl in *.
    destruct IH as [-> IH]. auto.
  - simpl. split; [reflexivity|]. constructor; [exact Hl | exact Hls].
Qed.

Lemma assign_same (key val : jsstring) (ls1 ls2 : list jsstring) (out : jsobject) :
  Forall2 same_reading ls1 ls2 ->
  (assign key val ls1 out).2 = (assign key val ls2 out).2 /\
  Forall2 same_reading (assign key val ls1 out).1 (assign key val ls2 out).1.
Proof.
  intros H. unfold assign.
  assert (Htest : match ls1 with l' :: _ => item_test l' | [] => false end =
                  match ls2 with l' :: _ => item_test l' | [] => false end).
  { destruct H as [|? ? ? ? (_ & _ & Ht)]; auto. }
  rewrite Htest. destruct (is_nil val && _).
  { destruct (collect_items_same _ _ H) as [Harr Hrest].
    destruct (collect_items ls1), (collect_items ls2). simpl in *.
    rewrite Harr. auto. }
  destruct (bracket_test (trim val)).
  { destruct (JSON_parse (replace_quotes val)); simpl; auto. }
  destruct (string_eqb val (js "true") || string_eqb val (js "false")); [simpl; auto|].
  destruct (negb (isNaN (Number val))); simpl; auto.
Qed.

Lemma loop_same (fuel : nat) : forall (ls1 ls2 : list jsstring) (out : jsobject),
  Forall2 same_reading ls1 ls2 -> loop fuel ls1 out = loop fuel ls2 out.
Proof.
  induction fuel as [|fuel IH]; intros ls1 ls2 out H.
  - destruct H; reflexivity.
  - destruct H as [|l1 l2 ls1 ls2 Hl Hls]; [reflexivity|].
    cbn [loop]. rewrite !step_read. destruct Hl as (-> & _ & _).
    destruct (read_line l2) as [[key val]|].
    + destruct (assign_same key val ls1 ls2 out Hls) as [Hout Hrest].
      destruct (assign key val ls1 out), (assign key val ls2 out). simpl in *.
      subst. apply IH, Hrest.
    + apply IH, Hls.
Qed.

Lemma same_reading_refl (l : jsstring) : same_reading l l.
Proof. unfold same_reading. auto. Qed.

(** ** The shapes of the values stored *)

Lemma bracket_test_head (s : jsstring) :
  bracket_test s = true -> exists r, s = 91 :: r.
Proof.
  destruct s as [|c s]; simpl; [discriminate|].
  intros [->%N.eqb_eq _]%andb_true_iff. eauto.
Qed.

Lemma assign_cases (key val : jsstring) (rest : list jsstring) (out : jsobject) :
  (forall c r, val = c :: r -> is_space c = false) ->
  exists v, (assign key val rest out).2 = obj_set out key v /\ is_stored_value v = true.
Proof.
  intros Hhead. unfold assign.
  destruct (is_nil val && _).
  { destruct (collect_items rest) as [arr r]. simpl. eauto. }
  destruct (bracket_test (trim val)) eqn:Eb.
  { destruct (JSON_parse (replace_quotes val)) as [v|] eqn:Ej; simpl; [|eauto].
    exists v. split; [reflexivity|].
    apply bracket_test_head in Eb as [r Hr].
    destruct val as [|c val']; [discriminate|].
    unfold trim, trimStart in Hr. simpl in Hr.
    rewrite (Hhead c val' eq_refl) in Hr.
    destruct (trimEnd_prefix (c :: val')) as [w Hw]. rewrite Hr in Hw.
    injection Hw as -> _.
    change (replace_quotes (91 :: val')) with (91 :: replace_quotes val') in Ej.
    apply JSON_parse_bracket in Ej. unfold is_stored_value. rewrite Ej.
    rewrite !orb_true_r. reflexivity. }
  destruct (string_eqb val (js "true") || string_eqb val (js "false")); [simpl; eauto|].
  destruct (negb (isNaN (Number val))); simpl; eauto.
Qed.

Lemma step_values (l : jsstring) (rest : list jsstring) (out : jsobject) :
  (step l rest out).2 = out \/
  exists key v, (step l rest out).2 = obj_set out key v /\ is_stored_value v = true.
Proof.
  rewrite step_read. unfold read_line.
  destruct (is_nil (trimEnd l) || _); [auto|].
  destruct (entry_match (trimEnd l)) as [[key val]|] eqn:E; [|auto].
  right. exists key. apply assign_cases.
  intros c r. eapply entry_match_val_head, E.
Qed.

Lemma runs_values (lines : list jsstring) (out final : jsobject) :
  runs lines out final ->
  (forall k v, own out !! k = Some v -> is_stored_value v = true) ->
  forall k v, own final !! k = Some v -> is_stored_value v = true.
Proof.
  induction 1 as [out|l rest out rest' out' final E _ IH]; intros Hout; [exact Hout|].
  apply IH. intros k v Hk.
  destruct (step_values l rest out) as [Hs|(key & w & Hs & Hw)];
    rewrite E in Hs; simpl in Hs; subst out'.
  - eapply Hout, Hk.
  - apply obj_set_own_values in Hk as [Hk| ->]; [eapply Hout, Hk | exact Hw].
Qed.

(** ** The document tree *)

Lemma node_forall_ind (P : node -> Prop) :
  (forall name attrs children, Forall P children -> P (Element name attrs children)) ->
  (forall data, P (CharData data)) ->
  forall n, P n.
Proof.
  intros HE HC. fix IH 1. intros [name attrs children|data]; [|apply HC].
  apply HE. induction children as [|c cs IHcs]; constructor; [apply IH | exact IHcs].
Qed.

(** An element comes first, then what its children hold, left to right. *)
Lemma elements_named_element (wanted name : jsstring) attrs children :
  elements_named wanted (Element name attrs children) =
  (if name_matches wanted name then [Element name attrs children] else []) ++
  getElementsByTagName children wanted.
Proof.
  unfold getElementsByTagName. cbn [elements_named]. f_equal.
  induction children as [|c cs IH]; simpl; [reflexivity|]. rewrite IH. reflexivity.
Qed.

Lemma getElementsByTagName_app (xml1 xml2 : document) (wanted : jsstring) :
  getElementsByTagName (xml1 ++ xml2) wanted =
  getElementsByTagName xml1 wanted ++ getElementsByTagName xml2 wanted.
Proof. unfold getElementsByTagName. rewrite map_app, concat_app. reflexivity. Qed.

Lemma getElementsByTagName_cons (n : node) (xml : document) (wanted : jsstring) :
  getElementsByTagName (n :: xml) wanted =
  elements_named wanted n ++ getElementsByTagName xml wanted.
Proof. reflexivity. Qed.

Lemma elements_named_sound (wanted : jsstring) :
  string_eqb wanted (js "*") = false ->
  forall n n', In n' (elements_named wanted n) ->
    exists path, node_at n path = Some n' /\ is_element_named wanted n' = true.
Proof.
  intros Hstar. induction n as [name attrs children IH|data] using node_forall_ind;
    intros n'; [|intros []].
  rewrite elements_named_element. intros [Hin|Hin]%in_app_or.
  - unfold name_matches in Hin. rewrite Hstar in Hin. simpl in Hin.
    destruct (string_eqb wanted name) eqn:E; [|destruct Hin].
    destruct Hin as [<-|[]]. exists []. split; [reflexivity | exact E].
  - unfold getElementsByTagName in Hin.
    apply in_concat in Hin as (l & Hl & Hin).
    apply in_map_iff in Hl as (c & <- & Hc).
    rewrite Forall_forall in IH.
    destruct (IH c ltac:(apply list_elem_of_In; exact Hc) n' Hin) as (path & Hp & Hn).
    apply In_nth_error in Hc as [i Hi].
    exists (i :: path). simpl. rewrite Hi. auto.
Qed.

Lemma elements_named_complete (wanted : jsstring) (path : list nat) :
  forall n n', node_at n path = Some n' -> is_element_named wanted n' = true ->
    In n' (elements_named wanted n).
Proof.
  induction path as [|i path IH]; intros n n'; simpl.
  - intros [= <-] Hn. destruct n as [name attrs children|]; [|discriminate].
    rewrite elements_named_element. apply in_or_app. left.
    unfold name_matches. simpl in Hn. rewrite Hn, orb_true_r. left. reflexivity.
  - destruct n as [name attrs children|]; [|discriminate].
    destruct (nth_error children i) as [c|] eqn:Ei; [|discriminate].
    intros Hp Hn. rewrite elements_named_element. apply in_or_app. right.
    unfold getElementsByTagName. apply in_concat.
    exists (elements_named wanted c). split; [|eapply IH; eassumption].
    apply in_map. eapply nth_error_In, Ei.
Qed.

(** The collection holds exactly the elements of that name, at any depth. *)
Lemma getElementsByTagName_spec (xml : document) (wanted : jsstring) (n' : node) :
  string_eqb wanted (js "*") = false ->
  In n' (getElementsByTagName xml wanted) <->
  exists path, doc_node_at xml path = Some n' /\ is_element_named wanted n' = true.
Proof.
  intros Hstar. unfold getElementsByTagName. split.
  - intros (l & Hl & Hin)%in_concat. apply in_map_iff in Hl as (c & <- & Hc).
    destruct (elements_named_sound wanted Hstar c n' Hin) as (path & Hp & Hn).
    apply In_nth_error in Hc as [i Hi].
    exists (i :: path). simpl. rewrite Hi. auto.
  - intros ([|i path] & Hp & Hn); simpl in Hp; [discriminate|].
    destruct (nth_error xml i) as [c|] eqn:Ei; [|discriminate].
    apply in_concat. exists (elements_named wanted c).
    split; [apply in_map; eapply nth_error_In, Ei|].
    eapply elements_named_complete; eassumption.
Qed.

(** The points of a segment, as the collection sees them. *)
Lemma track_points_collected (pts : list node) :
  Forall is_track_point pts -> getElementsByTagName pts (js "trkpt") = pts.
Proof.
  induction 1 as [|pt pts (attrs & children & -> & Hnone) _ IH]; [reflexivity|].
  rewrite getElementsByTagName_cons, elements_named_element, Hnone, IH. reflexivity.
Qed.

(** An element of another name only passes on what its children hold. *)
Lemma elements_named_other (wanted name : jsstring) attrs children :
  name_matches wanted name = false ->
  elements_named wanted (Element name attrs children) =
  getElementsByTagName children wanted.
Proof. intros H. rewrite elements_named_element, H. reflexivity. Qed.

(** Segments are flattened, in the order of the document. *)
Lemma gpx_track_points (segments : list (list node)) :
  Forall (Forall is_track_point) segments ->
  getElementsByTagName (gpx_track segments) (js "trkpt") = concat segments.
Proof.
  intros H. unfold gpx_track.
  rewrite getElementsByTagName_cons, elements_named_other by reflexivity.
  rewrite getElementsByTagName_cons, elements_named_other by reflexivity.
  change (getElementsByTagName [] (js "trkpt")) with (@nil node).
  rewrite !app_nil_r.
  induction H as [|pts segs Hpts _ IH]; [reflexivity|].
  cbn [map]. rewrite getElementsByTagName_cons. unfold trkseg at 1.
  rewrite elements_named_other by reflexivity.
  rewrite (track_points_collected pts Hpts), IH. reflexivity.
Qed.

(** ** Document order *)

Section NumberingFacts.

Variable f : node -> list (list nat).
Variable g : node -> list node.

Lemma number_children_heads (ns : list node) : forall i path,
  path ∈ number_children f i ns -> exists j p, path = j :: p /\ (i <= j)%nat.
Proof.
  induction ns as [|c ns IH]; intros i path; simpl.
  - intros H. inversion H.
  - intros [H|H]%elem_of_app.
    + apply list_elem_of_fmap in H as (p & -> & _). exists i, p. auto.
    + apply IH in H as (j & p & -> & Hle). exists j, p. split; [reflexivity | lia].
Qed.

Lemma number_children_nodes (ns : list node) : forall pre,
  Forall (fun c => map (node_at c) (f c) = map Some (g c)) ns ->
  map (doc_node_at (pre ++ ns)) (number_children f (length pre) ns)
  = map Some (concat (map g ns)).
Proof.
  induction ns as [|c ns IH]; intros pre Hall; [reflexivity|].
  inversion Hall as [|? ? Hc Hns]; subst. simpl.
  rewrite !map_app. f_equal.
  - rewrite map_map, <- Hc. apply map_ext. intros p. simpl.
    rewrite nth_error_app2 by lia. rewrite Nat.sub_diag. reflexivity.
  - specialize (IH (pre ++ [c]) Hns).
    rewrite length_app, Nat.add_1_r, <- app_assoc in IH. exact IH.
Qed.

Lemma number_children_sorted (ns : list node) : forall i,
  Forall (fun c => StronglySorted path_before (f c)) ns ->
  StronglySorted path_before (number_children f i ns).
Proof.
  induction ns as [|c ns IH]; intros i Hall; [constructor|].
  inversion Hall as [|? ? Hc Hns]; subst. simpl.
  apply StronglySorted_app_2.
  - intros x1 x2 (p & -> & _)%list_elem_of_fmap (j & q & -> & Hle)%number_children_heads.
    simpl. left. lia.
  - clear -Hc. induction Hc as [|p ps _ IHs Hp]; [constructor|].
    simpl. constructor; [exact IHs|].
    rewrite Forall_forall in Hp. apply Forall_forall.
    intros x (q & -> & Hq)%list_elem_of_fmap. simpl. right. auto.
  - apply IH, Hns.
Qed.

Lemma number_children_complete (ns : list node) : forall i k c p,
  nth_error ns k = Some c -> p ∈ f c ->
  ((i + k)%nat :: p) ∈ number_children f i ns.
Proof.
  induction ns as [|c0 ns IH]; intros i [|k] c p Hk Hp; try discriminate; simpl in *.
  - injection Hk as ->. apply elem_of_app. left.
    rewrite Nat.add_0_r. apply list_elem_of_fmap. eauto.
  - apply elem_of_app. right.
    replace (i + S k)%nat with (S i + k)%nat by lia. eapply IH; eassumption.
Qed.

End NumberingFacts.

Lemma node_at_child (name : jsstring) attrs children (i : nat) (p : list nat) :
  node_at (Element name attrs children) (i :: p) = doc_node_at children (i :: p).
Proof. reflexivity. Qed.

Lemma paths_named_nodes (wanted : jsstring) (n : node) :
  map (node_at n) (paths_named wanted n) = map Some (elements_named wanted n).
Proof.
  induction n as [name attrs children IH|data] using node_forall_ind; [|reflexivity].
  rewrite elements_named_element. cbn [paths_named]. rewrite !map_app. f_equal.
  - destruct (name_matches wanted name); reflexivity.
  - unfold getElementsByTagName.
    rewrite <- (number_children_nodes (paths_named wanted) (elements_named wanted)
                  children [] IH).
    apply map_ext_in. intros path Hin.
    apply list_elem_of_In, number_children_heads in Hin as (j & p & -> & _).
    reflexivity.
Qed.

Lemma paths_named_sorted (wanted : jsstring) (n : node) :
  StronglySorted path_before (paths_named wanted n).
Proof.
  induction n as [name attrs children IH|data] using node_forall_ind; [|constructor].
  cbn [paths_named]. apply StronglySorted_app_2.
  - intros x1 x2 H1 (j & q & -> & _)%number_children_heads.
    destruct (name_matches wanted name); [|inversion H1].
    apply list_elem_of_singleton in H1 as ->. exact I.
  - destruct (name_matches wanted name); repeat constructor.
  - apply number_children_sorted, IH.
Qed.

Lemma paths_named_complete (wanted : jsstring) (path : list nat) :
  forall n n', node_at n path = Some n' -> is_element_named wanted n' = true ->
    path ∈ paths_named wanted n.
Proof.
  induction path as [|i path IH]; intros n n'; simpl.
  - intros [= <-] Hn. destruct n as [name attrs children|]; [|discriminate].
    cbn [paths_named]. apply elem_of_app. left.
    unfold name_matches. simpl in Hn. rewrite Hn, orb_true_r. left.
  - destruct n as [name attrs children|]; [|discriminate].
    destruct (nth_error children i) as [c|] eqn:Ei; [|discriminate].
    intros Hp Hn. cbn [paths_named]. apply elem_of_app. right.
    apply (number_children_complete (paths_named wanted) children 0 i c path Ei).
    eapply IH; eassumption.
Qed.

(** The collection lists the elements of the wanted name in document
    order: they are the nodes at the positions of [doc_paths_named], which
    are all the positions of such elements, each before the next. *)
Lemma getElementsByTagName_order (xml : document) (wanted : jsstring) :
  map (doc_node_at xml) (doc_paths_named xml wanted)
    = map Some (getElementsByTagName xml wanted) /\
  StronglySorted path_before (doc_paths_named xml wanted) /\
  (forall path n, doc_node_at xml path = Some n ->
                  is_element_named wanted n = true ->
                  path ∈ doc_paths_named xml wanted).
Proof.
  unfold doc_paths_named, getElementsByTagName. split; [|split].
  - apply (number_children_nodes (paths_named wanted) (elements_named wanted) xml []).
    apply Forall_forall. intros c _. apply paths_named_nodes.
  - apply number_children_sorted, Forall_forall. intros c _. apply paths_named_sorted.
  - intros [|i path] n Hp Hn; simpl in Hp; [discriminate|].
    destruct (nth_error xml i) as [c|] eqn:Ei; [|discriminate].
    apply (number_children_complete (paths_named wanted) xml 0 i c path Ei).
    eapply paths_named_complete; eassumption.
Qed.

(** ** The extractor, case by case *)

Section ExtractorFacts.

Context {exn polyline : Type}.
Variable parseFromString : jsstring -> jsstring -> exn + document.
Variable L_polyline : list latlng -> polyline_options -> exn + polyline.

Lemma gpxToPolyline_cases (gpxText : jsstring) (s : style) :
  gpxToPolyline parseFromString L_polyline gpxText s =
  match parseFromString gpxText (js "application/xml") with
  | inl e => caught e
  | inr xml =>
      match getElementsByTagName xml (js "trkpt") with
      | [] => (None, [])
      | pt :: pts =>
          match L_polyline (map point_of (pt :: pts)) (options_of s) with
          | inl e => caught e
          | inr p => (Some p, [])
          end
      end
  end.
Proof.
  unfold gpxToPolyline, try_body, bind, caught.
  destruct (parseFromString gpxText (js "application/xml")) as [e|xml]; [reflexivity|].
  destruct (getElementsByTagName xml (js "trkpt")) as [|pt pts]; [reflexivity|].
  cbn [is_nil]. destruct (L_polyline _ _); reflexivity.
Qed.

End ExtractorFacts.

(** ** What the branches store *)

(** The turn of the loop that an entry line gets, inside any text. *)
Lemma entry_turn (t : jsstring) (pre post : list jsstring) (l key val : jsstring) :
  split_lines t = pre ++ l :: post ->
  entry_match (trimEnd l) = Some (key, val) ->
  exists mid,
    reaches (split_lines t, empty_object) (l :: post, mid) /\
    step l post mid = assign key val post mid.
Proof.
  intros Ht He. destruct (entry_not_item _ _ _ He) as [Hitem _].
  destruct (reaches_line pre post l empty_object Hitem) as [mid Hmid].
  exists mid. rewrite Ht. split; [exact Hmid | apply step_entry, He].
Qed.

Lemma assign_empty (key : jsstring) (rest : list jsstring) (out : jsobject) :
  match rest with l' :: _ => item_test l' | [] => false end = false ->
  assign key [] rest out = (rest, obj_set out key (JNum zero)).
Proof. intros H. unfold assign. rewrite H. reflexivity. Qed.

Lemma assign_boolean (key : jsstring) (b : bool) (rest : list jsstring) (out : jsobject) :
  assign key (js (if b then "true" else "false")) rest out =
  (rest, obj_set out key (JBool b)).
Proof. destruct b; reflexivity. Qed.

Lemma assign_string (key val : jsstring) (rest : list jsstring) (out : jsobject) :
  is_nil val = false ->
  bracket_test (trim val) = false ->
  string_eqb val (js "true") || string_eqb val (js "false") = false ->
  isNaN (Number val) = true ->
  assign key val rest out = (rest, obj_set out key (JStr (trim val))).
Proof. intros H1 H2 H3 H4. unfold assign. rewrite H1, H2, H3, H4. reflexivity. Qed.

Lemma assign_bracket (key val : jsstring) (rest : list jsstring) (out : jsobject) :
  bracket_test (trim val) = true ->
  assign key val rest out =
  (rest, obj_set out key
           match JSON_parse (replace_quotes val) with
           | Some v => v
           | None => JStr val
           end).
Proof.
  intros H. unfold assign. rewrite H.
  destruct val as [|c val']; [discriminate|]. cbn [is_nil andb].
  destruct (JSON_parse _); reflexivity.
Qed.

Lemma to_lower_letter (c d : char) :
  to_lower c = d -> 97 <= d <= 122 -> c = d \/ c = d - 32.
Proof.
  unfold to_lower, is_upper. intros H Hd.
  destruct (65 <=? c) eqn:E1; destruct (c <=? 90) eqn:E2; simpl in H; try (left; exact H).
  right. lia.
Qed.

(** A spelling of [true] or [false] that is not all lower case goes to the
    last branch and is stored as it stands. *)
Lemma assign_other_case (key val : jsstring) (rest : list jsstring) (out : jsobject) :
  map to_lower val = js "true" \/ map to_lower val = js "false" ->
  val <> js "true" -> val <> js "false" ->
  assign key val rest out = (rest, obj_set out key (JStr val)).
Proof.
  intros [H|H] Ht Hf.
  - destruct val as [|c1 [|c2 [|c3 [|c4 [|]]]]]; try discriminate.
    injection H as H1 H2 H3 H4.
    apply to_lower_letter in H1 as [->| ->]; [| |lia];
    apply to_lower_letter in H2 as [->| ->]; try lia;
    apply to_lower_letter in H3 as [->| ->]; try lia;
    apply to_lower_letter in H4 as [->| ->]; try lia;
    first [exfalso; apply Ht; reflexivity
          | rewrite assign_string by (vm_compute; reflexivity); reflexivity].
  - destruct val as [|c1 [|c2 [|c3 [|c4 [|c5 [|]]]]]]; try discriminate.
    injection H as H1 H2 H3 H4 H5.
    apply to_lower_letter in H1 as [->| ->]; [| |lia];
    apply to_lower_letter in H2 as [->| ->]; try lia;
    apply to_lower_letter in H3 as [->| ->]; try lia;
    apply to_lower_letter in H4 as [->| ->]; try lia;
    apply to_lower_letter in H5 as [->| ->]; try lia;
    first [exfalso; apply Hf; reflexivity
          | rewrite assign_string by (vm_compute; reflexivity); reflexivity].
Qed.

(** An entry line whose branch stores [v] whatever the object: the loop
    comes to the line, makes the assignment, and, when the key is an
    ordinary one that no later line sets again, the result binds it to [v]. *)
Lemma entry_stores (t : jsstring) (pre post : list jsstring) (l key val : jsstring)
    (v : jsval) :
  split_lines t = pre ++ l :: post ->
  entry_match (trimEnd l) = Some (key, val) ->
  (forall out, assign key val post out = (post, obj_set out key v)) ->
  exists mid,
    reaches (split_lines t, empty_object) (l :: post, mid) /\
    step l post mid = (post, obj_set mid key v) /\
    (key <> proto_key ->
     (forall l', l' ∈ post -> entry_key l' <> Some key) ->
     exists final, parseYamlLike t = Some final /\ own final !! key = Some v).
Proof.
  intros Ht He Hassign.
  destruct (entry_turn t pre post l key val Ht He) as (mid & Hreach & Hstep).
  rewrite Hassign in Hstep.
  exists mid. split; [exact Hreach|]. split; [exact Hstep|].
  intros Hkey Hlast. eapply last_assignment; eassumption.
Qed.

Lemma Forall2_same_reading_refl (ls : list jsstring) : Forall2 same_reading ls ls.
Proof. induction ls; constructor; [apply same_reading_refl | assumption]. Qed.

Lemma drop_while_spaces (ws s : jsstring) :
  Forall (fun c => is_space c = true) ws ->
  drop_while is_space (ws ++ s) = drop_while is_space s.
Proof. induction 1 as [|c ws Hc _ IH]; simpl; [reflexivity|]. rewrite Hc. exact IH. Qed.

(** A line that opens with white space reads as nothing. *)
Lemma read_line_indented (c : char) (s : jsstring) :
  is_space c = true -> read_line (c :: s) = None.
Proof.
  intros Hc. unfold read_line.
  destruct (trimEnd_prefix (c :: s)) as [w Hw].
  destruct (trimEnd (c :: s)) as [|d line]; [reflexivity|].
  injection Hw as <- _. cbn [is_nil orb].
  destruct (startsWith _ _); [reflexivity|].
  apply entry_match_first.
  destruct (is_key_char c) eqn:E; [|reflexivity].
  apply key_char_not_space in E. congruence.
Qed.

(* ===================================================================== *)
(** * The claims *)
(* ===================================================================== *)

(** C1 (as the code has it).  Take any entry line of any text whose value
    after the colon is empty and whose next line, if there is one, is not
    a list-item line.  The loop reaches the line and assigns the Number 0
    to its key: the empty text is numeric for [Number] (it converts to 0),
    so the branch of line 216 takes it before the string branch of line
    219.  When the key is an ordinary property name that no later line
    sets again, the object returned binds it to 0; the key is present, not
    deleted. *)
Theorem empty_value_stores_zero
    (t : jsstring) (pre post : list jsstring) (l key : jsstring) :
  split_lines t = pre ++ l :: post ->
  entry_match (trimEnd l) = Some (key, []) ->
  match post with l' :: _ => item_test l' | [] => false end = false ->
  exists mid,
    reaches (split_lines t, empty_object) (l :: post, mid) /\
    step l post mid = (post, obj_set mid key (JNum zero)) /\
    (key <> proto_key ->
     (forall l', l' ∈ post -> entry_key l' <> Some key) ->
     exists final, parseYamlLike t = Some final /\ own final !! key = Some (JNum zero)).
Proof.
  intros Ht He Hnext. eapply entry_stores; [exact Ht | exact He |].
  intros out. apply assign_empty, Hnext.
Qed.

Lemma empty_value_stores_zero_witness :
  exists final, parseYamlLike (js "style:" ++ [LF] ++ js "zoom: 12") = Some final /\
                own final !! js "style" = Some (JNum zero).
Proof.
  destruct (empty_value_stores_zero
              (js "style:" ++ [LF] ++ js "zoom: 12") [] [js "zoom: 12"]
              (js "style:") (js "style") eq_refl eq_refl eq_refl) as (mid & _ & _ & H).
  apply H; [discriminate|].
  intros l' Hl'. apply list_elem_of_singleton in Hl' as ->. discriminate.
Defined.

(** C1 fails as stated: for the text [apiKey:] the object returned has the
    one own property [apiKey], and it is bound to the Number 0, which is
    not the empty string. *)
Lemma empty_value_is_not_empty_string :
  parseYamlLike (js "apiKey:") =
    Some (MkObject {[ js "apiKey" := JNum zero ]} ObjectPrototype) /\
  JNum zero <> JStr [].
Proof. split; [vm_compute; reflexivity | discriminate]. Qed.

(** C3.  For every text [t] the parser returns: the loop ends within one
    turn per line (more fuel changes nothing), no path through it throws
    (a failing [JSON.parse] is caught), and a line that holds no entry is
    passed over with [out] untouched. *)
Theorem parse_total (t : jsstring) :
  (exists out, parseYamlLike t = Some out /\ runs (split_lines t) empty_object out) /\
  (forall extra,
     loop (length (split_lines t) + extra) (split_lines t) empty_object
     = parseYamlLike t) /\
  (forall l rest out,
     step l rest out =
     match read_line l with
     | Some (key, val) => assign key val rest out
     | None => (rest, out)
     end).
Proof.
  destruct (loop_runs (length (split_lines t)) (split_lines t) empty_object)
    as (final & Hloop & Hruns); [lia|].
  split; [exists final; split; assumption|]. split; [|apply step_read].
  intros extra.
  destruct (loop_runs (length (split_lines t) + extra) (split_lines t) empty_object)
    as (final' & Hloop' & Hruns'); [lia|].
  unfold parseYamlLike, parse_lines. rewrite Hloop, Hloop'. f_equal.
  eapply runs_deterministic; eassumption.
Qed.

(** C4.  Every own key of the object returned for [t] is the key of an
    entry line of [t], and so occurs in [t] as a piece of its text. *)
Theorem keys_occur_in_text (t : jsstring) (out : jsobject) (k : jsstring) :
  parseYamlLike t = Some out ->
  is_Some (own out !! k) ->
  (exists l, l ∈ split_lines t /\ entry_key l = Some k) /\ occurs_in k t.
Proof.
  intros Hrun%parseYamlLike_runs Hk.
  destruct (runs_keys _ _ _ Hrun k Hk) as [Hin|(l & Hl & Hkey)].
  { simpl in Hin. rewrite lookup_empty in Hin. destruct Hin; discriminate. }
  split; [exists l; auto|].
  eapply occurs_in_trans; [apply entry_key_occurs, Hkey | apply split_lines_occurs, Hl].
Qed.

Lemma keys_occur_in_text_witness :
  occurs_in (js "zoom") (js "zoom: 12").
Proof.
  refine (proj2 (keys_occur_in_text (js "zoom: 12")
            (MkObject {[ js "zoom" := JNum (of_N 12) ]} ObjectPrototype)
            (js "zoom") _ _)).
  - vm_compute; reflexivity.
  - exists (JNum (of_N 12)). vm_compute; reflexivity.
Defined.

(** C7 (as the code has it).  Every value bound in the object returned is
    a string, a number, a Boolean or an array.  An array is either the
    list of strings of a list block or whatever array [JSON.parse] read
    from a bracketed value, of any length and with elements of any JSON
    type. *)
Theorem values_are_stored_shapes (t : jsstring) (out : jsobject) (k : jsstring) (v : jsval) :
  parseYamlLike t = Some out ->
  own out !! k = Some v ->
  is_stored_value v = true.
Proof.
  intros Hrun%parseYamlLike_runs Hk.
  eapply runs_values; [exact Hrun | | exact Hk].
  intros k' v'. simpl. rewrite lookup_empty. discriminate.
Qed.

Lemma values_are_stored_shapes_witness :
  is_stored_value (JArr [JNum (of_N 1); JNum (of_N 2); JNum (of_N 3)]) = true.
Proof.
  refine (values_are_stored_shapes (js "x: [1, 2, 3]")
            (MkObject {[ js "x" := JArr [JNum (of_N 1); JNum (of_N 2); JNum (of_N 3)] ]}
                      ObjectPrototype)
            (js "x") _ _ _).
  - vm_compute; reflexivity.
  - vm_compute; reflexivity.
Defined.

(** C7 fails as stated: [x: [1, 2, 3]] binds [x] to an array of three
    numbers, which is none of the five shapes of an Option Value. *)
Lemma values_not_only_option_values :
  exists out v,
    parseYamlLike (js "x: [1, 2, 3]") = Some out /\
    own out !! js "x" = Some v /\
    is_option_value v = false.
Proof.
  exists (MkObject {[ js "x" := JArr [JNum (of_N 1); JNum (of_N 2); JNum (of_N 3)] ]}
                   ObjectPrototype),
         (JArr [JNum (of_N 1); JNum (of_N 2); JNum (of_N 3)]).
  repeat split; vm_compute; reflexivity.
Qed.

(** C8 (as the code has it).  Take any entry line of any text whose value spells [true] or
    [false] in some mix of cases.  The loop reaches the line and assigns to
    its key: the Boolean when the value is exactly the lower-case token,
    the value itself as a string otherwise (so [True] stays a string).
    When the key is an ordinary property name that no later line sets
    again, that is what the object returned binds it to. *)
Theorem boolean_tokens_are_case_sensitive
    (t : jsstring) (pre post : list jsstring) (l key val : jsstring) (b : bool) :
  split_lines t = pre ++ l :: post ->
  entry_match (trimEnd l) = Some (key, val) ->
  map to_lower val = js (if b then "true" else "false") ->
  let stored :=
    if string_eqb val (js (if b then "true" else "false")) then JBool b else JStr val in
  exists mid,
    reaches (split_lines t, empty_object) (l :: post, mid) /\
    step l post mid = (post, obj_set mid key stored) /\
    (key <> proto_key ->
     (forall l', l' ∈ post -> entry_key l' <> Some key) ->
     exists final, parseYamlLike t = Some final /\ own final !! key = Some stored).
Proof.
  intros Ht He Hlow stored. eapply entry_stores; [exact Ht | exact He |].
  intros out. subst stored.
  destruct (string_eqb val (js (if b then "true" else "false"))) eqn:E.
  - apply string_eqb_eq in E as ->. apply assign_boolean.
  - assert (Hne : val <> js (if b then "true" else "false")).
    { intros ->. rewrite string_eqb_refl in E. discriminate. }
    apply assign_other_case.
    + destruct b; [left | right]; exact Hlow.
    + destruct b; [exact Hne | intros ->; discriminate].
    + destruct b; [intros ->; discriminate | exact Hne].
Qed.

Lemma boolean_tokens_are_case_sensitive_witness :
  (exists final, parseYamlLike (js "flag: true") = Some final /\
                 own final !! js "flag" = Some (JBool true)) /\
  (exists final, parseYamlLike (js "flag: True") = Some final /\
                 own final !! js "flag" = Some (JStr (js "True"))).
Proof.
  split.
  - destruct (boolean_tokens_are_case_sensitive
                (js "flag: true") [] [] (js "flag: true") (js "flag") (js "true") true
                eq_refl eq_refl eq_refl) as (mid & _ & _ & H).
    apply H; [discriminate|]. intros l' Hl'. inversion Hl'.
  - destruct (boolean_tokens_are_case_sensitive
                (js "flag: True") [] [] (js "flag: True") (js "flag") (js "True") true
                eq_refl eq_refl eq_refl) as (mid & _ & _ & H).
    apply H; [discriminate|]. intros l' Hl'. inversion Hl'.
Defined.

(** C8 fails as stated: the line [__proto__: true] has the value [true],
    yet no Boolean is stored; the assignment goes to the inherited setter,
    which ignores a Boolean, and the object returned has no own property
    and its first prototype. *)
Lemma proto_key_boolean_is_not_stored :
  parseYamlLike (js "__proto__: true") = Some (MkObject ∅ ObjectPrototype) /\
  (forall k : jsstring, own (MkObject ∅ ObjectPrototype) !! k = None).
Proof. split; [vm_compute; reflexivity | intros k; apply lookup_empty]. Qed.

(** C9 (as the code has it).  Take any entry line of any text whose trimmed value has the
    bracketed form.  The loop reaches the line and assigns to its key what
    [JSON.parse] returns for the value with every apostrophe turned into a
    double quote, which is then an array; if [JSON.parse] throws, it
    assigns the value itself as a string.  When the key is an ordinary
    property name that no later line sets again, that is what the object
    returned binds it to.  For the text [center: [51.3, 0.49]] and a line
    feed, the result is the object with the one property [center], the
    pair of numbers 51.3 and 0.49. *)
Theorem bracketed_value_is_json
    (t : jsstring) (pre post : list jsstring) (l key val : jsstring) :
  split_lines t = pre ++ l :: post ->
  entry_match (trimEnd l) = Some (key, val) ->
  bracket_test (trim val) = true ->
  let stored :=
    match JSON_parse (replace_quotes val) with
    | Some v => v
    | None => JStr val
    end in
  (exists mid,
     reaches (split_lines t, empty_object) (l :: post, mid) /\
     step l post mid = (post, obj_set mid key stored) /\
     (key <> proto_key ->
      (forall l', l' ∈ post -> entry_key l' <> Some key) ->
      exists final, parseYamlLike t = Some final /\ own final !! key = Some stored)) /\
  (is_array stored = true \/
   (JSON_parse (replace_quotes val) = None /\ stored = JStr val)) /\
  parseYamlLike (js "center: [51.3, 0.49]" ++ [LF]) =
    Some (MkObject
            {[ js "center" := JArr [JNum (Finite false 513 (-1)); JNum (Finite false 49 (-2))] ]}
            ObjectPrototype).
Proof.
  intros Ht He Hb stored. split; [|split].
  - eapply entry_stores; [exact Ht | exact He |].
    intros out. apply assign_bracket, Hb.
  - subst stored. destruct (JSON_parse (replace_quotes val)) as [v|] eqn:Ej; [left | right; auto].
    apply bracket_test_head in Hb as [r Hr].
    destruct val as [|c val']; [discriminate|].
    unfold trim, trimStart in Hr. simpl in Hr.
    rewrite (entry_match_val_head _ _ _ c val' He eq_refl) in Hr.
    destruct (trimEnd_prefix (c :: val')) as [w Hw]. rewrite Hr in Hw.
    injection Hw as -> _.
    change (replace_quotes (91 :: val')) with (91 :: replace_quotes val') in Ej.
    eapply JSON_parse_bracket, Ej.
  - vm_compute; reflexivity.
Qed.

Lemma bracketed_value_is_json_witness :
  (exists final, parseYamlLike (js "gpx: ['a.gpx', 'b.gpx']") = Some final /\
     own final !! js "gpx" = Some (JArr [JStr (js "a.gpx"); JStr (js "b.gpx")])) /\
  (exists final, parseYamlLike (js "center: [51.3; 0.49]") = Some final /\
     own final !! js "center" = Some (JStr (js "[51.3; 0.49]"))).
Proof.
  split.
  - destruct (bracketed_value_is_json
                (js "gpx: ['a.gpx', 'b.gpx']") [] [] (js "gpx: ['a.gpx', 'b.gpx']")
                (js "gpx") (js "['a.gpx', 'b.gpx']") eq_refl eq_refl eq_refl)
      as [(mid & _ & _ & H) _].
    apply H; [discriminate|]. intros l' Hl'. inversion Hl'.
  - destruct (bracketed_value_is_json
                (js "center: [51.3; 0.49]") [] [] (js "center: [51.3; 0.49]")
                (js "center") (js "[51.3; 0.49]") eq_refl eq_refl eq_refl)
      as [(mid & _ & _ & H) _].
    apply H; [discriminate|]. intros l' Hl'. inversion Hl'.
Defined.

(** C9 fails as stated: in the line [__proto__: [1;2]] the value has the
    bracketed form and is not valid JSON, yet the raw value is not stored;
    the string goes to the inherited setter, which ignores it, and the
    object returned has no own property. *)
Lemma proto_key_bracket_is_not_stored :
  bracket_test (trim (js "[1;2]")) = true /\
  JSON_parse (replace_quotes (js "[1;2]")) = None /\
  parseYamlLike (js "__proto__: [1;2]") = Some (MkObject ∅ ObjectPrototype) /\
  (forall k : jsstring, own (MkObject ∅ ObjectPrototype) !! k = None).
Proof.
  split; [vm_compute; reflexivity|]. split; [vm_compute; reflexivity|].
  split; [vm_compute; reflexivity|]. intros k. apply lookup_empty.
Qed.

(** C10.  A line made of some white space followed by an entry line
    produces no entry: the turn of the loop that meets it leaves the object
    as it is, and the text parses to what it would parse to with that line
    blank.  A line that does hold an entry starts with its key, the colon
    right after it. *)
Theorem indented_entry_is_ignored (ws body key val : jsstring) :
  ws <> [] ->
  Forall (fun c => is_space c = true) ws ->
  entry_match (trimEnd body) = Some (key, val) ->
  (forall rest out, step (ws ++ body) rest out = (rest, out)) /\
  (forall pre post,
     parse_lines (pre ++ (ws ++ body) :: post) = parse_lines (pre ++ [] :: post)) /\
  (forall t pre post,
     split_lines t = pre ++ (ws ++ body) :: post ->
     parseYamlLike t = parse_lines (pre ++ [] :: post)) /\
  (forall l k, entry_key l = Some k -> exists s, l = k ++ 58 :: s).
Proof.
  intros Hne Hws He.
  assert (Hread : read_line (ws ++ body) = None).
  { destruct ws as [|c ws']; [congruence|]. inversion Hws; subst.
    apply read_line_indented. assumption. }
  assert (Hsame : same_reading (ws ++ body) []).
  { destruct (entry_not_item _ _ _ He) as [Hitem Htest].
    unfold same_reading. rewrite Hread. split; [reflexivity|].
    unfold item_match, item_test in *.
    rewrite (drop_while_spaces ws body Hws), Hitem, Htest. split; reflexivity. }
  assert (Hlines : forall pre post,
            parse_lines (pre ++ (ws ++ body) :: post) = parse_lines (pre ++ [] :: post)).
  { intros pre post. unfold parse_lines. rewrite !length_app. simpl length.
    apply loop_same. apply Forall2_app; [apply Forall2_same_reading_refl|].
    constructor; [exact Hsame | apply Forall2_same_reading_refl]. }
  split; [|split; [|split]].
  - intros rest out. rewrite step_read, Hread. reflexivity.
  - exact Hlines.
  - intros t pre post Ht. unfold parseYamlLike. rewrite Ht. apply Hlines.
  - intros l k Hk. apply entry_key_starts, Hk.
Qed.

Lemma indented_entry_is_ignored_witness :
  parseYamlLike (js "  zoom: 12") = Some empty_object.
Proof.
  destruct (indented_entry_is_ignored (js "  ") (js "zoom: 12") (js "zoom") (js "12"))
    as (_ & _ & H & _).
  - discriminate.
  - repeat constructor.
  - reflexivity.
  - rewrite (H (js "  zoom: 12") [] []); reflexivity.
Defined.

Lemma point_of_reads (a : option jsstring) :
  coordinate_read a (parseFloat (or_zero a)).
Proof.
  destruct a as [[|c text]|]; simpl; [reflexivity| |reflexivity].
  split; [reflexivity|]. intros H. unfold parseFloat. rewrite H. reflexivity.
Qed.

(** C2 (as the code has it).  Whatever document the parser returns, the
    sequence handed to [L.polyline] has one pair for every [trkpt] element
    of the document, in the same order, and the pair of each element is
    read from the [lat] and [lon] attributes of that element: a missing
    attribute, or an empty one, gives 0; any other text is read by
    [parseFloat] as it stands, so a text with no numeric prefix gives
    [NaN] and not 0.  The extractor throws nothing of its own: with one
    [trkpt] or more it returns what [L.polyline] returns for that
    sequence (a point without a [lon] attribute has longitude 0 in it). *)
Theorem coordinates_from_attributes {exn polyline : Type}
    (parseFromString : jsstring -> jsstring -> exn + document)
    (L_polyline : list latlng -> polyline_options -> exn + polyline)
    (gpxText : jsstring) (s : style) (xml : document) :
  parseFromString gpxText (js "application/xml") = inr xml ->
  let trkpts := getElementsByTagName xml (js "trkpt") in
  exists latlngs : list latlng,
    gpxToPolyline parseFromString L_polyline gpxText s =
      (if is_nil trkpts then (None, [])
       else match L_polyline latlngs (options_of s) with
            | inl e => caught e
            | inr p => (Some p, [])
            end) /\
    length latlngs = length trkpts /\
    forall i pt,
      nth_error trkpts i = Some pt ->
      exists lat lon,
        nth_error latlngs i = Some (lat, lon) /\
        coordinate_read (getAttribute pt (js "lat")) lat /\
        coordinate_read (getAttribute pt (js "lon")) lon.
Proof.
  intros Hdoc trkpts. exists (map point_of trkpts). split; [|split].
  - rewrite gpxToPolyline_cases, Hdoc. fold trkpts.
    destruct trkpts; reflexivity.
  - apply length_map.
  - intros i pt Hi.
    exists (parseFloat (or_zero (getAttribute pt (js "lat")))),
           (parseFloat (or_zero (getAttribute pt (js "lon")))).
    split; [|split; apply point_of_reads].
    apply (map_nth_error point_of _ _ Hi).
Qed.

Lemma coordinates_from_attributes_witness :
  exists latlngs,
    gpxToPolyline
      (parser_returning
         (gpx_track [[track_point (js "51.5") (js "0.4");
                      Element (js "trkpt") [(js "lat", js "51.6")] []]]))
      recording_polyline
      (js "<gpx><trk><trkseg><trkpt lat='51.5' lon='0.4'/><trkpt lat='51.6'/></trkseg></trk></gpx>")
      (MkStyle None)
    = (Some (latlngs, options_of (MkStyle None)), []) /\
    nth_error latlngs 1 = Some (Finite false 516 (-1), zero).
Proof.
  destruct (coordinates_from_attributes
              (parser_returning
                 (gpx_track [[track_point (js "51.5") (js "0.4");
                              Element (js "trkpt") [(js "lat", js "51.6")] []]]))
              recording_polyline
              (js "<gpx><trk><trkseg><trkpt lat='51.5' lon='0.4'/><trkpt lat='51.6'/></trkseg></trk></gpx>")
              (MkStyle None) _ eq_refl) as (latlngs & Hres & _ & Hpts).
  exists latlngs. split; [exact Hres|].
  destruct (Hpts 1%nat (Element (js "trkpt") [(js "lat", js "51.6")] []) eq_refl)
    as (lat & lon & Hn & [Hlat _] & Hlon).
  rewrite Hn, Hlat, Hlon. reflexivity.
Defined.

(** C2 fails as stated: for a document whose second track point has a
    [lon] attribute that is not numeric, the extractor hands [L.polyline]
    a sequence whose second longitude is [NaN], not 0. *)
Lemma non_numeric_attribute_is_nan :
  gpxToPolyline
    (parser_returning
       (gpx_track [[track_point (js "51.5") (js "0.4");
                    track_point (js "51.6") (js "east")]]))
    recording_polyline
    (js "<gpx><trk><trkseg><trkpt lat='51.5' lon='0.4'/><trkpt lat='51.6' lon='east'/></trkseg></trk></gpx>")
    (MkStyle None)
  = (Some ([(Finite false 515 (-1), Finite false 4 (-1)); (Finite false 516 (-1), NaN)],
           options_of (MkStyle None)), []) /\
  NaN <> zero.
Proof. split; [vm_compute; reflexivity | discriminate]. Qed.

(** C5 (as the code has it).  [gpxToPolyline] is defined on every text and
    returns a value and a list of diagnostics; nothing is thrown out of it.
    If the parser throws, or [L.polyline] throws, the result is [null]
    and one diagnostic carrying what was thrown.  If the document holds no
    [trkpt] element the result is [null] and nothing is logged.  Otherwise
    the result is what [L.polyline] makes of the coordinates of all the
    [trkpt] elements in document order, a sequence that is not empty, and
    nothing is logged. *)
Theorem extractor_outcomes {exn polyline : Type}
    (parseFromString : jsstring -> jsstring -> exn + document)
    (L_polyline : list latlng -> polyline_options -> exn + polyline)
    (gpxText : jsstring) (s : style) :
  let r := gpxToPolyline parseFromString L_polyline gpxText s in
  r = match parseFromString gpxText (js "application/xml") with
      | inl e => (None, [(parse_error_message, e)])
      | inr xml =>
          match getElementsByTagName xml (js "trkpt") with
          | [] => (None, [])
          | pt :: pts =>
              match L_polyline (point_of pt :: map point_of pts) (options_of s) with
              | inl e => (None, [(parse_error_message, e)])
              | inr p => (Some p, [])
              end
          end
      end /\
  (forall e, parseFromString gpxText (js "application/xml") = inl e ->
             r = (None, [(parse_error_message, e)])) /\
  (forall xml, parseFromString gpxText (js "application/xml") = inr xml ->
               getElementsByTagName xml (js "trkpt") = [] ->
               r = (None, [])) /\
  (forall p, r.1 = Some p ->
     r.2 = [] /\
     exists xml pt pts,
       parseFromString gpxText (js "application/xml") = inr xml /\
       getElementsByTagName xml (js "trkpt") = pt :: pts /\
       L_polyline (map point_of (pt :: pts)) (options_of s) = inr p).
Proof.
  intros r. assert (Hr := gpxToPolyline_cases parseFromString L_polyline gpxText s).
  fold r in Hr. split; [exact Hr|]. split; [|split].
  - intros e He. rewrite Hr, He. reflexivity.
  - intros xml Hx Hnone. rewrite Hr, Hx, Hnone. reflexivity.
  - intros p. rewrite Hr.
    destruct (parseFromString gpxText (js "application/xml")) as [e|xml]; [discriminate|].
    destruct (getElementsByTagName xml (js "trkpt")) as [|pt pts] eqn:Ept; [discriminate|].
    destruct (L_polyline (map point_of (pt :: pts)) (options_of s)) as [e|q] eqn:El;
      [discriminate|].
    simpl. intros [= ->]. split; [reflexivity|]. exists xml, pt, pts. auto.
Qed.

(** C5 fails as stated: for a document with no [trkpt] element the result
    is [null] and no diagnostic is sent. *)
Lemma no_track_points_no_diagnostic :
  gpxToPolyline (parser_returning [Element (js "gpx") [] []]) recording_polyline
    (js "<gpx></gpx>") (MkStyle None)
  = (None, []).
Proof. reflexivity. Qed.

(** C6.  Whatever document the parser returns, the sequence handed to
    [L.polyline] is that of the coordinates of the collection of [trkpt]
    elements, one pair per element and in the same order, and the
    extractor returns what [L.polyline] returns for it.  The collection
    holds exactly the elements of that name found at any position of the
    document, at any depth, and lists them in document order.  For a
    document of one track with any number of segments, it is the points of
    the segments, one segment after the other. *)
Theorem segments_are_flattened {exn polyline : Type}
    (parseFromString : jsstring -> jsstring -> exn + document)
    (L_polyline : list latlng -> polyline_options -> exn + polyline)
    (gpxText : jsstring) (s : style) (xml : document) :
  parseFromString gpxText (js "application/xml") = inr xml ->
  let trkpts := getElementsByTagName xml (js "trkpt") in
  gpxToPolyline parseFromString L_polyline gpxText s =
    match trkpts with
    | [] => (None, [])
    | pt :: pts =>
        match L_polyline (map point_of (pt :: pts)) (options_of s) with
        | inl e => caught e
        | inr p => (Some p, [])
        end
    end /\
  (forall n,
     In n trkpts <->
     exists path, doc_node_at xml path = Some n /\
                  is_element_named (js "trkpt") n = true) /\
  map (doc_node_at xml) (doc_paths_named xml (js "trkpt")) = map Some trkpts /\
  StronglySorted path_before (doc_paths_named xml (js "trkpt")) /\
  (forall path n,
     doc_node_at xml path = Some n ->
     is_element_named (js "trkpt") n = true ->
     path ∈ doc_paths_named xml (js "trkpt")) /\
  (forall segments,
     xml = gpx_track segments ->
     Forall (Forall is_track_point) segments ->
     trkpts = concat segments).
Proof.
  intros Hdoc trkpts.
  destruct (getElementsByTagName_order xml (js "trkpt")) as (Hnodes & Hsorted & Hall).
  split; [|split; [|split; [|split; [|split]]]].
  - rewrite gpxToPolyline_cases, Hdoc. reflexivity.
  - intros n. apply getElementsByTagName_spec. reflexivity.
  - exact Hnodes.
  - exact Hsorted.
  - exact Hall.
  - intros segments -> Hpts. apply gpx_track_points, Hpts.
Qed.

Lemma segments_are_flattened_witness :
  gpxToPolyline
    (parser_returning
       (gpx_track
          [[track_point (js "51") (js "1"); track_point (js "52") (js "2");
            track_point (js "53") (js "3")];
           [track_point (js "54") (js "4"); track_point (js "55") (js "5")]]))
    recording_polyline (js "<gpx><trk><trkseg/><trkseg/></trk></gpx>") (MkStyle None)
  = (Some ([(of_N 51, of_N 1); (of_N 52, of_N 2); (of_N 53, of_N 3);
            (of_N 54, of_N 4); (of_N 55, of_N 5)],
           options_of (MkStyle None)), []).
Proof.
  destruct (segments_are_flattened
              (parser_returning
                 (gpx_track
                    [[track_point (js "51") (js "1"); track_point (js "52") (js "2");
                      track_point (js "53") (js "3")];
                     [track_point (js "54") (js "4"); track_point (js "55") (js "5")]]))
              recording_polyline (js "<gpx><trk><trkseg/><trkseg/></trk></gpx>")
              (MkStyle None) _ eq_refl) as (H & _ & _ & _ & _ & Hflat).
  rewrite H, (Hflat _ eq_refl); [reflexivity|].
  repeat constructor; eexists _, _; split; reflexivity.
Defined.

(* ===================================================================== *)
(** * Further properties of the options parser *)
(* ===================================================================== *)

Lemma assign_value (key val : jsstring) (rest : list jsstring) (out : jsobject) :
  (assign key val rest out).2 = obj_set out key (entry_value val rest).
Proof.
  unfold assign, entry_value.
  destruct (is_nil val && _).
  { destruct (collect_items rest) as [arr r]. reflexivity. }
  destruct (bracket_test (trim val)).
  { destruct (JSON_parse (replace_quotes val)); reflexivity. }
  destruct (string_eqb val (js "true") || string_eqb val (js "false")); [reflexivity|].
  destruct (negb (isNaN (Number val))); reflexivity.
Qed.

Lemma assign_rest (key val : jsstring) (rest : list jsstring) (out : jsobject) :
  exists pre, rest = pre ++ (assign key val rest out).1.
Proof.
  destruct (assign key val rest out) as [rest' out'] eqn:E.
  unfold assign in E.
  destruct (is_nil val && _).
  { destruct (collect_items rest) as [arr r] eqn:Ec. injection E as <- _.
    eapply collect_items_suffix, Ec. }
  exists []. simpl.
  destruct (bracket_test (trim val)).
  { destruct (JSON_parse (replace_quotes val)); injection E as <- _; reflexivity. }
  destruct (string_eqb val (js "true") || string_eqb val (js "false"));
    [injection E as <- _; reflexivity|].
  destruct (negb (isNaN (Number val))); injection E as <- _; reflexivity.
Qed.

(** The text of a value has no white space at either end. *)
Lemma entry_match_val_trimmed (line key val : jsstring) :
  (forall c r, rev line = c :: r -> is_space c = false) ->
  entry_match line = Some (key, val) -> trim val = val.
Proof.
  intros Hend He.
  pose proof (entry_match_key _ _ _ He) as (_ & _ & r & Hline & Hval & _).
  destruct val as [|c val']; [reflexivity|].
  assert (Hstart : trimStart (c :: val') = c :: val').
  { unfold trimStart. simpl.
    rewrite (entry_match_val_head _ _ _ c val' He eq_refl). reflexivity. }
  unfold trim. rewrite Hstart. unfold trimEnd.
  destruct (drop_while_suffix is_space r) as [w Hw]. rewrite <- Hval in Hw.
  destruct (rev (c :: val')) as [|x xs] eqn:Erev.
  { apply (f_equal (@rev _)) in Erev. rewrite rev_involutive in Erev. discriminate. }
  assert (Hx : is_space x = false).
  { apply (Hend x (xs ++ rev (key ++ 58 :: w))).
    assert (Hl : line = (key ++ 58 :: w) ++ c :: val').
    { rewrite Hline, Hw, <- app_assoc. reflexivity. }
    rewrite Hl, rev_app_distr, Erev. reflexivity. }
  simpl. rewrite Hx. rewrite <- Erev. apply rev_involutive.
Qed.

Lemma trimEnd_last (l : jsstring) c r :
  rev (trimEnd l) = c :: r -> is_space c = false.
Proof. unfold trimEnd. rewrite rev_involutive. apply drop_while_head. Qed.

Lemma entry_val_trimmed (l key val : jsstring) :
  entry_match (trimEnd l) = Some (key, val) -> trim val = val.
Proof. apply entry_match_val_trimmed. intros c r. apply trimEnd_last. Qed.

(** An own key of the result is the key of an entry line. *)
Lemma keys_present_have_entry (t : jsstring) (out : jsobject) (k : jsstring) :
  parseYamlLike t = Some out ->
  is_Some (own out !! k) ->
  exists l, l ∈ split_lines t /\ entry_key l = Some k.
Proof.
  intros Hrun%parseYamlLike_runs Hk.
  destruct (runs_keys _ _ _ Hrun k Hk) as [Hin|H]; [|exact H].
  simpl in Hin. rewrite lookup_empty in Hin. destruct Hin; discriminate.
Qed.

(** The binding of the last entry line for a key: the value its branch
    assigns, whatever came before. *)
Lemma last_entry_binding (t key val : jsstring) (post : list jsstring) :
  last_entry t key val post ->
  key <> proto_key ->
  exists final,
    parseYamlLike t = Some final /\ own final !! key = Some (entry_value val post).
Proof.
  intros (pre & l & Ht & He & Hlast) Hkey.
  destruct (entry_turn t pre post l key val Ht He) as (mid & Hreach & Hstep).
  destruct (loop_runs (length (split_lines t)) (split_lines t) empty_object)
    as (final & Hloop & Hruns); [lia|].
  exists final. split; [exact Hloop|].
  apply (reaches_runs _ _ final Hreach) in Hruns. simpl in Hruns.
  inversion Hruns as [|? ? ? rest' out' ? Hs Hrest]; subst.
  rewrite Hstep in Hs.
  pose proof (assign_value key val post mid) as Hv.
  destruct (assign_rest key val post mid) as [consumed Hc].
  rewrite Hs in Hv, Hc. simpl in Hv, Hc. subst out'.
  rewrite (runs_preserves _ _ _ key Hrest).
  - apply obj_set_lookup, Hkey.
  - intros l' Hl'. apply Hlast. rewrite Hc. apply elem_of_app. right. exact Hl'.
Qed.

(** Among the lines that satisfy a decidable property, one comes last. *)
Lemma last_such (P : jsstring -> Prop) (Hdec : forall l, Decision (P l))
    (lines : list jsstring) :
  (exists l, l ∈ lines /\ P l) ->
  exists pre l post, lines = pre ++ l :: post /\ P l /\ forall l', l' ∈ post -> ~ P l'.
Proof.
  induction lines as [|a lines IH]; intros (l & Hl & HP); [inversion Hl|].
  destruct (decide (Exists P lines)) as [Hex|Hno].
  - apply Exists_exists in Hex. destruct (IH Hex) as (pre & x & post & -> & Hx & Hpost).
    exists (a :: pre), x, post. auto.
  - exists [], a, lines. split; [reflexivity|]. split.
    + apply elem_of_cons in Hl as [->|Hl]; [exact HP|].
      exfalso. apply Hno, Exists_exists. eauto.
    + intros l' Hl' HP'. apply Hno, Exists_exists. eauto.
Qed.

Lemma entry_key_last (t key : jsstring) :
  (exists l, l ∈ split_lines t /\ entry_key l = Some key) ->
  exists val post, last_entry t key val post.
Proof.
  intros H.
  destruct (last_such (fun l => entry_key l = Some key) _ (split_lines t) H)
    as (pre & l & post & Ht & Hl & Hpost).
  unfold entry_key in Hl.
  destruct (entry_match (trimEnd l)) as [[k val]|] eqn:E; [|discriminate].
  injection Hl as ->. exists val, post, pre, l. auto.
Qed.

(** Along a run the object never gets an own property named [__proto__],
    and its prototype is [Object.prototype] or an array. *)
Lemma runs_prototype (lines : list jsstring) (o f : jsobject) :
  runs lines o f ->
  own o !! proto_key = None /\
    (proto o = ObjectPrototype \/ exists items, proto o = ProtoValue (JArr items)) ->
  own f !! proto_key = None /\
    (proto f = ObjectPrototype \/ exists items, proto f = ProtoValue (JArr items)).
Proof.
  induction 1 as [o|l rest o rest' o' f E _ IH]; [auto|].
  intros [Hown Hproto]. apply IH.
  destruct (step_values l rest o) as [Hs|(k & w & Hs & Hw)];
    rewrite E in Hs; simpl in Hs; subst o'; [auto|].
  assert (Hacc : reaches_proto_accessor (proto o) = true).
  { destruct Hproto as [->|[items ->]]; reflexivity. }
  unfold obj_set. destruct (string_eqb k proto_key) eqn:Ek.
  - rewrite Hacc. simpl. destruct w; try discriminate; simpl; eauto.
  - simpl. split; [|exact Hproto].
    rewrite lookup_insert_ne; [exact Hown|].
    intros ->. rewrite string_eqb_refl in Ek. discriminate.
Qed.

Lemma parse_prototype (t : jsstring) (out : jsobject) :
  parseYamlLike t = Some out ->
  own out !! proto_key = None /\
    (proto out = ObjectPrototype \/ exists items, proto out = ProtoValue (JArr items)).
Proof.
  intros Hrun%parseYamlLike_runs.
  apply (runs_prototype _ _ _ Hrun). split; [reflexivity | left; reflexivity].
Qed.

(** Every binding of the result is the value of the last entry line for
    its key. *)
Lemma binding_provenance (t : jsstring) (out : jsobject) (key : jsstring) (v : jsval) :
  parseYamlLike t = Some out ->
  own out !! key = Some v ->
  exists val post, last_entry t key val post /\ v = entry_value val post.
Proof.
  intros Hrun Hk.
  destruct (decide (key = proto_key)) as [->|Hkey].
  { destruct (parse_prototype t out Hrun) as [Hnone _]. congruence. }
  pose proof (keys_present_have_entry t out key Hrun (ex_intro _ v Hk)) as Hex.
  destruct (entry_key_last t key Hex) as (val & post & Hlast).
  destruct (last_entry_binding t key val post Hlast Hkey) as (final & Hfinal & Hbind).
  rewrite Hrun in Hfinal. injection Hfinal as <-.
  rewrite Hk in Hbind. injection Hbind as ->. eauto.
Qed.

Lemma last_entry_val_trimmed (t key val : jsstring) (post : list jsstring) :
  last_entry t key val post -> trim val = val.
Proof. intros (pre & l & _ & He & _). eapply entry_val_trimmed, He. Qed.

Lemma Number_empty_trim (val : jsstring) : trim val = [] -> Number val = zero.
Proof. intros H. unfold Number. rewrite H. reflexivity. Qed.

Lemma clean_string (val : jsstring) :
  val <> [] -> trim val = val -> is_clean_value (JStr val) = true.
Proof.
  intros Hne Htrim. unfold is_clean_value. rewrite Htrim, string_eqb_refl.
  destruct val; [congruence | reflexivity].
Qed.

(** The value of an entry whose text has no white space at either end. *)
Lemma entry_value_clean (val : jsstring) (rest : list jsstring) :
  trim val = val -> is_clean_value (entry_value val rest) = true.
Proof.
  intros Htrim. unfold entry_value.
  destruct (is_nil val && _); [reflexivity|].
  rewrite Htrim. destruct (bracket_test val) eqn:Eb.
  { destruct (JSON_parse (replace_quotes val)) as [v|] eqn:Ej.
    - apply bracket_test_head in Eb as [r ->].
      change (replace_quotes (91 :: r)) with (91 :: replace_quotes r) in Ej.
      apply JSON_parse_bracket in Ej. destruct v; try discriminate. reflexivity.
    - apply clean_string; [|exact Htrim]. intros ->. discriminate. }
  destruct (string_eqb val (js "true") || string_eqb val (js "false")); [reflexivity|].
  destruct (isNaN (Number val)) eqn:En; simpl negb; cbv iota.
  - apply clean_string; [|exact Htrim]. intros ->.
    rewrite Number_empty_trim in En by reflexivity. discriminate.
  - unfold is_clean_value. rewrite En. reflexivity.
Qed.

(* --------------------------------------------------------------------- *)

(** X1.  The own keys of the result are exactly the keys of the entry
    lines of the text, [__proto__] left out. *)
Theorem own_keys_are_entry_keys (t : jsstring) (out : jsobject) (k : jsstring) :
  parseYamlLike t = Some out ->
  is_Some (own out !! k) <->
  k <> proto_key /\ exists l, l ∈ split_lines t /\ entry_key l = Some k.
Proof.
  intros Hrun. split.
  - intros Hk. split.
    + intros ->. destruct (parse_prototype t out Hrun) as [Hnone _].
      rewrite Hnone in Hk. destruct Hk; discriminate.
    + eapply keys_present_have_entry; eassumption.
  - intros [Hkey Hex].
    destruct (entry_key_last t k Hex) as (val & post & Hlast).
    destruct (last_entry_binding t k val post Hlast Hkey) as (final & Hfinal & Hbind).
    rewrite Hrun in Hfinal. injection Hfinal as <-. eauto.
Qed.

Lemma own_keys_are_entry_keys_witness :
  is_Some (own (MkObject {[ js "zoom" := JNum (of_N 12) ]} ObjectPrototype) !! js "zoom").
Proof.
  apply (own_keys_are_entry_keys (js "# map" ++ [LF] ++ js "zoom: 12")
           (MkObject {[ js "zoom" := JNum (of_N 12) ]} ObjectPrototype) (js "zoom")).
  - vm_compute; reflexivity.
  - split; [discriminate|]. exists (js "zoom: 12"). split; [|reflexivity].
    right. left.
Defined.

(** X2.  Last write wins: the binding of a key is the value of the last
    entry line for it, read together with the lines after it; what comes
    before that line has no part in it. *)
Theorem last_entry_wins (t1 t2 key val : jsstring) (post : list jsstring) :
  last_entry t1 key val post ->
  last_entry t2 key val post ->
  key <> proto_key ->
  exists out1 out2,
    parseYamlLike t1 = Some out1 /\ parseYamlLike t2 = Some out2 /\
    own out1 !! key = Some (entry_value val post) /\
    own out2 !! key = own out1 !! key.
Proof.
  intros H1 H2 Hkey.
  destruct (last_entry_binding t1 key val post H1 Hkey) as (o1 & Hp1 & Hb1).
  destruct (last_entry_binding t2 key val post H2 Hkey) as (o2 & Hp2 & Hb2).
  exists o1, o2. rewrite Hb1, Hb2. auto.
Qed.

Lemma last_entry_wins_witness :
  exists out1 out2,
    parseYamlLike (js "zoom: 3" ++ [LF] ++ js "zoom: 12") = Some out1 /\
    parseYamlLike (js "zoom: 12") = Some out2 /\
    own out1 !! js "zoom" = Some (JNum (of_N 12)) /\
    own out2 !! js "zoom" = own out1 !! js "zoom".
Proof.
  apply (last_entry_wins (js "zoom: 3" ++ [LF] ++ js "zoom: 12") (js "zoom: 12")
           (js "zoom") (js "12") []).
  - exists [js "zoom: 3"], (js "zoom: 12").
    split; [reflexivity|]. split; [reflexivity|]. intros l' Hl'. inversion Hl'.
  - exists [], (js "zoom: 12").
    split; [reflexivity|]. split; [reflexivity|]. intros l' Hl'. inversion Hl'.
  - discriminate.
Defined.

Lemma item_match_test (l item : jsstring) :
  item_match l = Some item -> item_test l = true.
Proof.
  unfold item_match, item_test.
  destruct (drop_while is_space l) as [|d [|c r]]; try discriminate.
  destruct ((d =? 45) && is_space c); [reflexivity | discriminate].
Qed.

(** The inner loop takes a run of list-item lines and stops at the first
    line that is not one. *)
Lemma collect_items_block (ls : list jsstring) (items : list jsstring)
    (rest : list jsstring) :
  Forall2 (fun l item => item_match l = Some item) ls items ->
  match rest with l' :: _ => item_match l' | [] => None end = None ->
  collect_items (ls ++ rest) = (map trim items, rest).
Proof.
  intros Hls Hrest. induction Hls as [|l item ls items Hl _ IH]; simpl.
  - destruct rest as [|l' rest']; [reflexivity|]. simpl. rewrite Hrest. reflexivity.
  - rewrite Hl, IH. reflexivity.
Qed.

(** X3.  A key other than [__proto__] with nothing after the colon,
    followed by one list-item line or more, is bound to the array of the
    items of the whole run of list-item lines, in their order, each item
    stripped of surrounding white space (when no later line sets the key
    again). *)
Theorem list_block_is_array
    (t key : jsstring) (l0 : jsstring) (ls rest : list jsstring)
    (item0 : jsstring) (items : list jsstring) :
  last_entry t key [] (l0 :: ls ++ rest) ->
  key <> proto_key ->
  Forall2 (fun l item => item_match l = Some item) (l0 :: ls) (item0 :: items) ->
  match rest with l' :: _ => item_match l' | [] => None end = None ->
  exists out,
    parseYamlLike t = Some out /\
    own out !! key = Some (JArr (map (fun item => JStr (trim item)) (item0 :: items))).
Proof.
  intros Hlast Hkey Hitems Hrest.
  destruct (last_entry_binding t key [] _ Hlast Hkey) as (out & Hp & Hb).
  exists out. split; [exact Hp|]. rewrite Hb. unfold entry_value.
  inversion Hitems as [|? ? ? ? H0 _]; subst.
  cbn [is_nil andb]. rewrite (item_match_test _ _ H0).
  change (l0 :: ls ++ rest) with ((l0 :: ls) ++ rest).
  rewrite (collect_items_block _ _ _ Hitems Hrest).
  cbn [fst]. rewrite <- (map_map trim JStr). reflexivity.
Qed.

Lemma list_block_is_array_witness :
  exists out,
    parseYamlLike (js "gpx:" ++ [LF] ++ js "  - [[a.gpx]]" ++ [LF] ++
                   js "  -   b.gpx  " ++ [LF] ++ js "zoom: 12") = Some out /\
    own out !! js "gpx" = Some (JArr [JStr (js "[[a.gpx]]"); JStr (js "b.gpx")]).
Proof.
  apply (list_block_is_array
           (js "gpx:" ++ [LF] ++ js "  - [[a.gpx]]" ++ [LF] ++
            js "  -   b.gpx  " ++ [LF] ++ js "zoom: 12")
           (js "gpx") (js "  - [[a.gpx]]") [js "  -   b.gpx  "] [js "zoom: 12"]
           (js "[[a.gpx]]") [js "b.gpx  "]).
  - exists [], (js "gpx:"). split; [reflexivity|]. split; [reflexivity|].
    intros l' Hl'. repeat (apply elem_of_cons in Hl' as [->|Hl']; [discriminate|]).
    inversion Hl'.
  - discriminate.
  - repeat constructor.
  - reflexivity.
Defined.

Lemma drop_while_keeps (p : char -> bool) (x z : jsstring) (c : char) :
  p c = false -> exists y, drop_while p (x ++ c :: z) = y ++ c :: z.
Proof.
  intros Hc. induction x as [|a x [y IH]]; simpl.
  - rewrite Hc. exists []. reflexivity.
  - destruct (p a); [exists y; exact IH | exists (a :: x); reflexivity].
Qed.

(** A line whose first character that is not white space is [#]. *)
Lemma comment_same_reading (ws r : jsstring) :
  Forall (fun c => is_space c = true) ws ->
  same_reading (ws ++ 35 :: r) [].
Proof.
  intros Hws.
  assert (Hitem : drop_while is_space (ws ++ 35 :: r) = 35 :: r).
  { rewrite (drop_while_spaces ws _ Hws). reflexivity. }
  unfold same_reading, item_match, item_test. rewrite Hitem.
  split; [|split; destruct r; reflexivity].
  unfold read_line, trimEnd. rewrite rev_app_distr. simpl rev.
  rewrite <- app_assoc. simpl app.
  destruct (drop_while_keeps is_space (rev r) (rev ws) 35 eq_refl) as [y Hy].
  rewrite Hy, rev_app_distr. simpl rev. rewrite rev_involutive, <- app_assoc. simpl app.
  unfold trimStart. rewrite (drop_while_spaces ws _ Hws). simpl drop_while.
  change (startsWith (35 :: rev y) (js "#")) with true.
  rewrite orb_true_r. reflexivity.
Qed.

(** X4.  A line whose first character that is not white space is [#] is a
    comment: the text parses to what it would parse to with that line
    blank, wherever the line stands (also inside a list block, which it
    ends) and whatever follows the [#]. *)
Theorem comment_line_is_blank (ws r : jsstring) (pre post : list jsstring) :
  Forall (fun c => is_space c = true) ws ->
  parse_lines (pre ++ (ws ++ 35 :: r) :: post) = parse_lines (pre ++ [] :: post) /\
  forall rest out, step (ws ++ 35 :: r) rest out = (rest, out).
Proof.
  intros Hws. pose proof (comment_same_reading ws r Hws) as Hsame. split.
  - unfold parse_lines. rewrite !length_app. simpl length.
    apply loop_same. apply Forall2_app; [apply Forall2_same_reading_refl|].
    constructor; [exact Hsame | apply Forall2_same_reading_refl].
  - intros rest out. rewrite step_read. destruct Hsame as [-> _]. reflexivity.
Qed.

Lemma comment_line_is_blank_witness :
  parse_lines [js "zoom: 12"; js "  # zoom: 3"] = parse_lines [js "zoom: 12"; []].
Proof.
  apply (comment_line_is_blank (js "  ") (js " zoom: 3") [js "zoom: 12"] []).
  repeat constructor.
Defined.

Lemma Number_bracket (r : jsstring) : trim (91 :: r) = 91 :: r -> Number (91 :: r) = NaN.
Proof. intros H. unfold Number. rewrite H. destruct r; reflexivity. Qed.

(** X5.  Text after a bracketed value is not a comment: for a key other
    than [__proto__], a value that opens with a bracket but does not close
    with one (as when a [#] remark follows the array on the same line) is
    bound whole, as a string, and is never read as an array (when no later
    line sets the key again). *)
Theorem bracket_with_trailer_is_text
    (t key : jsstring) (r : jsstring) (post : list jsstring) :
  last_entry t key (91 :: r) post ->
  key <> proto_key ->
  bracket_test (91 :: r) = false ->
  exists out,
    parseYamlLike t = Some out /\ own out !! key = Some (JStr (91 :: r)).
Proof.
  intros Hlast Hkey Hb.
  destruct (last_entry_binding t key _ post Hlast Hkey) as (out & Hp & Hbind).
  exists out. split; [exact Hp|]. rewrite Hbind.
  pose proof (last_entry_val_trimmed _ _ _ _ Hlast) as Htrim.
  unfold entry_value. cbn [is_nil andb]. rewrite Htrim, Hb.
  change (string_eqb (91 :: r) (js "true")) with false.
  change (string_eqb (91 :: r) (js "false")) with false.
  rewrite (Number_bracket r Htrim). reflexivity.
Qed.

Lemma bracket_with_trailer_is_text_witness :
  exists out,
    parseYamlLike (js "center: [51.338, 0.493]   # Peter" ++ [8217] ++ js "s Village area")
      = Some out /\
    own out !! js "center"
      = Some (JStr (js "[51.338, 0.493]   # Peter" ++ [8217] ++ js "s Village area")).
Proof.
  apply (bracket_with_trailer_is_text
           (js "center: [51.338, 0.493]   # Peter" ++ [8217] ++ js "s Village area")
           (js "center")
           (js "51.338, 0.493]   # Peter" ++ [8217] ++ js "s Village area") []).
  - exists [], (js "center: [51.338, 0.493]   # Peter" ++ [8217] ++ js "s Village area").
    split; [reflexivity|]. split; [reflexivity|]. intros l' Hl'. inversion Hl'.
  - discriminate.
  - reflexivity.
Defined.

(** X6.  Line endings do not matter: a text with no carriage return of
    its own splits into the same lines, and so parses to the same object,
    when every line feed is written as carriage return, line feed. *)
Theorem crlf_text_parses_alike (t : jsstring) :
  Forall (fun c => c <> CR) t ->
  split_lines (to_crlf t) = split_lines t /\
  parseYamlLike (to_crlf t) = parseYamlLike t.
Proof.
  intros Ht.
  assert (Hsplit : split_lines (to_crlf t) = split_lines t).
  { induction Ht as [|c t Hc _ IH]; [reflexivity|].
    unfold to_crlf in *. cbn [map concat]. cbn [split_lines].
    destruct (c =? LF) eqn:E.
    - change (split_lines ([CR; LF] ++ concat (map (fun c => if c =? LF then [CR; LF] else [c]) t)))
        with ([] :: split_lines (concat (map (fun c => if c =? LF then [CR; LF] else [c]) t))).
      rewrite IH. reflexivity.
    - cbn [app split_lines]. rewrite E.
      rewrite (proj2 (N.eqb_neq c CR) Hc). cbn [andb]. rewrite IH. reflexivity. }
  split; [exact Hsplit|]. unfold parseYamlLike. rewrite Hsplit. reflexivity.
Qed.

Lemma crlf_text_parses_alike_witness :
  parseYamlLike (js "zoom: 12" ++ [CR; LF] ++ js "fit: true" ++ [CR; LF])
  = parseYamlLike (js "zoom: 12" ++ [LF] ++ js "fit: true" ++ [LF]).
Proof.
  refine (proj2 (crlf_text_parses_alike (js "zoom: 12" ++ [LF] ++ js "fit: true" ++ [LF]) _)).
  repeat constructor; discriminate.
Defined.

(** Lines that hold no entry for [__proto__] leave the prototype alone. *)
Lemma runs_keeps_prototype (lines : list jsstring) (o f : jsobject) :
  runs lines o f ->
  (forall l, l ∈ lines -> entry_key l <> Some proto_key) ->
  proto f = proto o.
Proof.
  induction 1 as [o|l rest o rest' o' f E _ IH]; intros Hno; [reflexivity|].
  apply step_cases in E as [[pre ->] Hout]. rewrite IH.
  - destruct Hout as [->|(k & v & Hk & ->)]; [reflexivity|].
    unfold obj_set. rewrite string_eqb_neq; [reflexivity|].
    intros ->. eapply Hno; [left | exact Hk].
  - intros l' Hl'. apply Hno. right. apply elem_of_app. right. exact Hl'.
Qed.

(** X7.  No text can give the result an own property named [__proto__],
    nor a prototype other than [Object.prototype] or an array; and the
    prototype stays [Object.prototype] unless a line sets the key
    [__proto__]. *)
Theorem prototype_is_contained (t : jsstring) (out : jsobject) :
  parseYamlLike t = Some out ->
  own out !! proto_key = None /\
  (proto out = ObjectPrototype \/ exists items, proto out = ProtoValue (JArr items)) /\
  (no_entry t proto_key -> proto out = ObjectPrototype).
Proof.
  intros Hrun. destruct (parse_prototype t out Hrun) as [Hown Hproto].
  split; [exact Hown|]. split; [exact Hproto|].
  intros Hno. apply parseYamlLike_runs in Hrun.
  apply (runs_keeps_prototype _ _ _ Hrun Hno).
Qed.

Lemma prototype_is_contained_witness :
  own (MkObject ∅ (ProtoValue (JArr [JNum (of_N 1)]))) !! proto_key = None.
Proof.
  refine (proj1 (prototype_is_contained (js "__proto__: [1]")
                   (MkObject ∅ (ProtoValue (JArr [JNum (of_N 1)]))) _)).
  vm_compute; reflexivity.
Defined.

(** X8.  A number bound directly to a key of the result is never [NaN],
    and a string bound directly to a key is never empty and has no white
    space at either end.  (Nothing is said of the elements of an array:
    a list item may be empty, and a JSON array holds its strings as
    written.) *)
Theorem stored_values_are_clean (t : jsstring) (out : jsobject) (k : jsstring) (v : jsval) :
  parseYamlLike t = Some out ->
  own out !! k = Some v ->
  is_clean_value v = true.
Proof.
  intros Hrun Hk.
  destruct (binding_provenance t out k v Hrun Hk) as (val & post & Hlast & ->).
  apply entry_value_clean. eapply last_entry_val_trimmed, Hlast.
Qed.

Lemma stored_values_are_clean_witness :
  is_clean_value (JStr (js "Outdoor 3857")) = true.
Proof.
  refine (stored_values_are_clean (js "style:    Outdoor 3857   ")
            (MkObject {[ js "style" := JStr (js "Outdoor 3857") ]} ObjectPrototype)
            (js "style") _ _ _).
  - vm_compute; reflexivity.
  - vm_compute; reflexivity.
Defined.

(* ===================================================================== *)
(** * The tile address *)
(* ===================================================================== *)

Lemma hex_digit_unreserved (n : N) : n < 16 -> is_unreserved (hex_digit n) = true.
Proof.
  intros Hn. unfold hex_digit, is_unreserved.
  destruct (n <? 10) eqn:E.
  - apply N.ltb_lt in E.
    assert (Hd : is_digit (48 + n) = true).
    { unfold is_digit. apply andb_true_iff. rewrite !N.leb_le. lia. }
    rewrite Hd, !orb_true_r. reflexivity.
  - apply N.ltb_ge in E.
    assert (Hu : is_upper (55 + n) = true).
    { unfold is_upper. apply andb_true_iff. rewrite !N.leb_le. lia. }
    rewrite Hu. reflexivity.
Qed.

Lemma percent_safe (octet : N) :
  octet < 256 -> Forall (fun c => is_query_safe c = true) (percent octet).
Proof.
  intros H. unfold percent, is_query_safe. repeat constructor.
  - rewrite hex_digit_unreserved; [reflexivity|]. apply N.Div0.div_lt_upper_bound. lia.
  - rewrite hex_digit_unreserved; [reflexivity|]. apply N.mod_lt. discriminate.
Qed.

Lemma utf8_octets (cp : N) : cp < 1114112 -> Forall (fun b => b < 256) (utf8 cp).
Proof.
  intros H. unfold utf8.
  assert (Hmod : forall a, 128 + a mod 64 < 256).
  { intros a. pose proof (N.mod_lt a 64 ltac:(discriminate)). lia. }
  destruct (cp <? 128) eqn:E1; [apply N.ltb_lt in E1; repeat constructor; lia|].
  destruct (cp <? 2048) eqn:E2.
  { apply N.ltb_lt in E2. repeat constructor; [|apply Hmod].
    pose proof (N.Div0.div_lt_upper_bound cp 64 32 ltac:(lia)). lia. }
  destruct (cp <? 65536) eqn:E3.
  { apply N.ltb_lt in E3. repeat constructor; try apply Hmod.
    pose proof (N.Div0.div_lt_upper_bound cp 4096 16 ltac:(lia)). lia. }
  repeat constructor; try apply Hmod.
  pose proof (N.Div0.div_lt_upper_bound cp 262144 5 ltac:(lia)). lia.
Qed.

Lemma escape_safe (cp : N) :
  cp < 1114112 -> Forall (fun c => is_query_safe c = true) (escape cp).
Proof.
  intros H. unfold escape. apply Forall_concat, Forall_fmap.
  eapply Forall_impl; [apply utf8_octets, H|]. intros b Hb. apply percent_safe, Hb.
Qed.

Lemma encodeURIComponent_safe (s : jsstring) : forall e,
  is_utf16 s -> encodeURIComponent s = Some e ->
  Forall (fun c => is_query_safe c = true) e.
Proof.
  remember (length s) as n eqn:Hn. revert s Hn.
  induction n as [n IH] using lt_wf_ind. intros s Hn e Hs.
  destruct s as [|c s']; simpl; [intros [= <-]; constructor|].
  inversion Hs as [|? ? Hc Hs']; subst.
  destruct (is_unreserved c) eqn:Eu.
  { destruct (encodeURIComponent s') as [e'|] eqn:E; [|discriminate].
    intros [= <-]. constructor.
    - unfold is_query_safe. rewrite Eu. reflexivity.
    - eapply (IH (length s')); [simpl; lia | reflexivity | exact Hs' | exact E]. }
  destruct (is_trail_surrogate c); [discriminate|].
  destruct (is_lead_surrogate c) eqn:El.
  { destruct s' as [|d s'']; [discriminate|].
    destruct (is_trail_surrogate d) eqn:Et; [|discriminate].
    destruct (encodeURIComponent s'') as [e'|] eqn:E; [|discriminate].
    intros [= <-]. inversion Hs' as [|? ? Hd Hs'']; subst.
    apply Forall_app. split.
    - apply escape_safe.
      unfold is_lead_surrogate in El. unfold is_trail_surrogate in Et.
      apply andb_true_iff in El as [_ El%N.leb_le].
      apply andb_true_iff in Et as [_ Et%N.leb_le]. lia.
    - eapply (IH (length s'')); [simpl; lia | reflexivity | exact Hs'' | exact E]. }
  destruct (encodeURIComponent s') as [e'|] eqn:E; [|discriminate].
  intros [= <-]. apply Forall_app. split.
  - apply escape_safe. lia.
  - eapply (IH (length s')); [simpl; lia | reflexivity | exact Hs' | exact E].
Qed.

Lemma encodeURIComponent_plain (s : jsstring) :
  forallb is_unreserved s = true -> encodeURIComponent s = Some s.
Proof.
  induction s as [|c s IH]; simpl; [reflexivity|].
  intros [Hc Hs]%andb_true_iff. rewrite Hc, (IH Hs). reflexivity.
Qed.

Lemma encodeURIComponent_defined (s : jsstring) :
  Forall (fun c => is_lead_surrogate c = false /\ is_trail_surrogate c = false) s ->
  is_Some (encodeURIComponent s).
Proof.
  induction 1 as [|c s [Hl Ht] _ [e IH]]; simpl; [eauto|].
  rewrite IH, Hl, Ht. destruct (is_unreserved c); simpl; eauto.
Qed.

(** X9.  The address [osRasterUrl] builds is the fixed head of the
    service, the style, the fixed tail that ends in [?key=], and the key
    in a form that holds only unreserved characters and percent signs: no
    key can end the parameter or add another part to the address. *)
Theorem tile_url_key_is_escaped (style apiKey url : jsstring) :
  is_utf16 apiKey ->
  osRasterUrl style apiKey = Some url ->
  exists key,
    url = url_prefix ++ style ++ url_middle ++ key /\
    Forall (fun c => is_query_safe c = true) key.
Proof.
  intros Hs. unfold osRasterUrl.
  destruct (encodeURIComponent apiKey) as [key|] eqn:E; [|discriminate].
  intros [= <-]. exists key. split; [reflexivity|].
  eapply encodeURIComponent_safe; eassumption.
Qed.

Lemma tile_url_key_is_escaped_witness :
  exists key,
    js "https://api.os.uk/maps/raster/v1/zxy/Road_3857/{z}/{x}/{y}.png?key=a%26b%3D%C3%A9"
      = url_prefix ++ js "Road_3857" ++ url_middle ++ key /\
    Forall (fun c => is_query_safe c = true) key.
Proof.
  apply (tile_url_key_is_escaped (js "Road_3857") (js "a&b=" ++ [233])).
  - repeat constructor.
  - reflexivity.
Defined.

(** X10.  [osRasterUrl] throws only for a key with a surrogate code unit:
    without one it returns an address, and a key made of unreserved
    characters alone (letters, digits and the nine marks) stands in the
    address as it is. *)
Theorem tile_url_for_plain_keys (style apiKey : jsstring) :
  (Forall (fun c => is_lead_surrogate c = false /\ is_trail_surrogate c = false) apiKey ->
   is_Some (osRasterUrl style apiKey)) /\
  (forallb is_unreserved apiKey = true ->
   osRasterUrl style apiKey = Some (url_prefix ++ style ++ url_middle ++ apiKey)).
Proof.
  unfold osRasterUrl. split.
  - intros [e He]%encodeURIComponent_defined. rewrite He. simpl. eauto.
  - intros H. rewrite (encodeURIComponent_plain _ H). reflexivity.
Qed.

Lemma tile_url_for_plain_keys_witness :
  osRasterUrl (js "Outdoor_3857") (js "pk.Ab12_x-y")
  = Some (js "https://api.os.uk/maps/raster/v1/zxy/Outdoor_3857/{z}/{x}/{y}.png?key=pk.Ab12_x-y").
Proof.
  refine (proj2 (tile_url_for_plain_keys (js "Outdoor_3857") (js "pk.Ab12_x-y")) _).
  reflexivity.
Defined.

(* ===================================================================== *)
(** * File references *)
(* ===================================================================== *)

Lemma wikilink_of_wrapped (p : jsstring) : wikilink_of (js "[[" ++ p ++ js "]]") = p.
Proof.
  unfold wikilink_of.
  change (strip_prefix (js "[[") (js "[[" ++ p ++ js "]]")) with (p ++ js "]]").
  unfold strip_suffix. rewrite rev_app_distr.
  change (strip_prefix (rev (js "]]")) (rev (js "]]") ++ rev p)) with (rev p).
  apply rev_involutive.
Qed.

Section ResolveFacts.

Variable getFirstLinkpathDest : jsstring -> jsstring -> option vault_entry.
Variable getAbstractFileByPath : jsstring -> option vault_entry.

(** X11.  For every text [p], cutting the markers off the reference
    [[[p]]] gives back [p], so that reference is looked up under [p]: first
    by the link resolver, then as a path.  When [p] itself neither starts
    with two opening brackets nor ends with two closing ones (cutting the
    markers off [p] changes nothing), the wikilink and the plain reference
    [p] lead to the same file. *)
Theorem wikilink_resolves_as_its_target (p sourcePath : jsstring) :
  wikilink_of (js "[[" ++ p ++ js "]]") = p /\
  resolveLink getFirstLinkpathDest getAbstractFileByPath
    (js "[[" ++ p ++ js "]]") sourcePath
  = match getFirstLinkpathDest p sourcePath with
    | Some (TFile f) => Some (TFile f)
    | _ =>
        match getAbstractFileByPath p with
        | Some (TFile f) => Some (TFile f)
        | _ => None
        end
    end /\
  (wikilink_of p = p ->
   resolveLink getFirstLinkpathDest getAbstractFileByPath
     (js "[[" ++ p ++ js "]]") sourcePath
   = resolveLink getFirstLinkpathDest getAbstractFileByPath p sourcePath).
Proof.
  split; [apply wikilink_of_wrapped|]. unfold resolveLink.
  rewrite wikilink_of_wrapped. split; [reflexivity|].
  intros ->. reflexivity.
Qed.

(** X12.  What [resolveLink] returns is a file, never a folder: the one
    the link resolver gives, or, only when that gives no file, the one
    stored under the path itself; and it is [null] exactly when neither
    gives a file. *)
Theorem resolveLink_returns_files (ref sourcePath : jsstring) :
  let w := wikilink_of ref in
  let found := resolveLink getFirstLinkpathDest getAbstractFileByPath ref sourcePath in
  (forall e, found = Some e ->
     is_file e = true /\
     (getFirstLinkpathDest w sourcePath = Some e \/
      (getAbstractFileByPath w = Some e /\
       forall p, getFirstLinkpathDest w sourcePath <> Some (TFile p)))) /\
  (found = None <->
     (forall p, getFirstLinkpathDest w sourcePath <> Some (TFile p)) /\
     (forall p, getAbstractFileByPath w <> Some (TFile p))).
Proof.
  intros w found. subst found. unfold resolveLink. fold w. split.
  - intros e He.
    destruct (getFirstLinkpathDest w sourcePath) as [[p1|p1]|] eqn:E1.
    + injection He as <-. auto.
    + destruct (getAbstractFileByPath w) as [[p2|p2]|]; try discriminate.
      injection He as <-. split; [reflexivity|]. right.
      split; [reflexivity|]. intros p. discriminate.
    + destruct (getAbstractFileByPath w) as [[p2|p2]|]; try discriminate.
      injection He as <-. split; [reflexivity|]. right.
      split; [reflexivity|]. intros p. discriminate.
  - split.
    + intros H.
      destruct (getFirstLinkpathDest w sourcePath) as [[p1|p1]|]; [discriminate| |];
        (destruct (getAbstractFileByPath w) as [[p2|p2]|]; [discriminate| |]);
        split; intros p; discriminate.
    + intros [H1 H2].
      destruct (getFirstLinkpathDest w sourcePath) as [[p1|p1]|];
        [exfalso; apply (H1 p1); reflexivity| |];
        (destruct (getAbstractFileByPath w) as [[p2|p2]|];
         [exfalso; apply (H2 p2); reflexivity | reflexivity | reflexivity]).
Qed.

End ResolveFacts.

Lemma wikilink_resolves_as_its_target_witness :
  resolveLink (fun w _ => Some (TFile w)) (fun _ => None)
    (js "[[Routes/a.gpx]]") (js "Walks.md")
  = resolveLink (fun w _ => Some (TFile w)) (fun _ => None)
    (js "Routes/a.gpx") (js "Walks.md").
Proof.
  refine (proj2 (proj2 (wikilink_resolves_as_its_target
                          (fun w _ => Some (TFile w)) (fun _ => None)
                          (js "Routes/a.gpx") (js "Walks.md"))) _).
  reflexivity.
Defined.

(* ===================================================================== *)
(** * Reading the options *)
(* ===================================================================== *)

(** On what the parser returns, an option is read from the own
    properties alone. *)
Lemma get_option_own (t : jsstring) (opts : jsobject) (n : option_name) :
  parseYamlLike t = Some opts -> get_option opts n = own opts !! name_of n.
Proof.
  intros Hrun. destruct (parse_prototype t opts Hrun) as [_ Hproto].
  unfold get_option. destruct (own opts !! name_of n); [reflexivity|].
  destruct Hproto as [->|[items ->]]; reflexivity.
Qed.

Lemma name_of_not_proto (n : option_name) : name_of n <> proto_key.
Proof. destruct n; discriminate. Qed.

Lemma get_option_absent (t : jsstring) (opts : jsobject) (n : option_name) :
  parseYamlLike t = Some opts ->
  no_entry t (name_of n) -> get_option opts n = None.
Proof.
  intros Hrun Hno. rewrite (get_option_own t opts n Hrun).
  destruct (own opts !! name_of n) as [v|] eqn:E; [|reflexivity].
  destruct (keys_present_have_entry t opts _ Hrun (ex_intro _ v E)) as (l & Hl & Hk).
  exfalso. exact (Hno l Hl Hk).
Qed.

Lemma get_option_last (t : jsstring) (opts : jsobject) (n : option_name)
    (val : jsstring) (post : list jsstring) :
  parseYamlLike t = Some opts ->
  last_entry t (name_of n) val post ->
  get_option opts n = Some (entry_value val post).
Proof.
  intros Hrun Hlast. rewrite (get_option_own t opts n Hrun).
  destruct (last_entry_binding t _ val post Hlast (name_of_not_proto n))
    as (final & Hfinal & Hbind).
  rewrite Hrun in Hfinal. injection Hfinal as <-. exact Hbind.
Qed.

Lemma get_option_provenance (t : jsstring) (opts : jsobject) (n : option_name) (v : jsval) :
  parseYamlLike t = Some opts ->
  get_option opts n = Some v ->
  exists val post, last_entry t (name_of n) val post /\ v = entry_value val post.
Proof.
  intros Hrun Hv. rewrite (get_option_own t opts n Hrun) in Hv.
  eapply binding_provenance; eassumption.
Qed.

(** Only the two lower-case tokens are read as Booleans. *)
Lemma entry_value_boolean (val : jsstring) (rest : list jsstring) (b : bool) :
  trim val = val ->
  entry_value val rest = JBool b ->
  val = js (if b then "true" else "false").
Proof.
  intros Htrim. unfold entry_value.
  destruct (is_nil val && _); [discriminate|].
  rewrite Htrim. destruct (bracket_test val) eqn:Eb.
  { destruct (JSON_parse (replace_quotes val)) as [v|] eqn:Ej; [|discriminate].
    apply bracket_test_head in Eb as [r ->].
    change (replace_quotes (91 :: r)) with (91 :: replace_quotes r) in Ej.
    apply JSON_parse_bracket in Ej. intros ->. discriminate. }
  destruct (string_eqb val (js "true")) eqn:Et.
  { apply string_eqb_eq in Et as ->. intros [= <-]. reflexivity. }
  destruct (string_eqb val (js "false")) eqn:Ef.
  { apply string_eqb_eq in Ef as ->. intros [= <-]. reflexivity. }
  simpl. destruct (negb (isNaN (Number val))); discriminate.
Qed.

Lemma entry_value_token (b : bool) (rest : list jsstring) :
  entry_value (js (if b then "true" else "false")) rest = JBool b.
Proof. destruct b; reflexivity. Qed.

(** An option is the Boolean [b] exactly when the last line that sets it
    holds the lower-case token of [b]. *)
Lemma option_is_boolean (t : jsstring) (opts : jsobject) (n : option_name) (b : bool) :
  parseYamlLike t = Some opts ->
  get_option opts n = Some (JBool b) <->
  exists post, last_entry t (name_of n) (js (if b then "true" else "false")) post.
Proof.
  intros Hrun. split.
  - intros Hv.
    destruct (get_option_provenance t opts n _ Hrun Hv) as (val & post & Hlast & Hval).
    symmetry in Hval.
    apply entry_value_boolean in Hval; [|eapply last_entry_val_trimmed, Hlast].
    subst val. eauto.
  - intros [post Hlast].
    rewrite (get_option_last t opts n _ post Hrun Hlast). f_equal. apply entry_value_token.
Qed.

(** X13.  The map is fitted to the tracks exactly when the last line that
    sets [zoomFeatures], or the last line that sets [fit], has the value
    [true], in lower case and with nothing after it. *)
Theorem fit_needs_the_token_true (t : jsstring) (opts : jsobject) :
  parseYamlLike t = Some opts ->
  fitToData opts = true <->
  (exists post, last_entry t (js "zoomFeatures") (js "true") post) \/
  (exists post, last_entry t (js "fit") (js "true") post).
Proof.
  intros Hrun. unfold fitToData. rewrite orb_true_iff.
  pose proof (option_is_boolean t opts ZoomFeatures true Hrun) as Hz.
  pose proof (option_is_boolean t opts Fit true Hrun) as Hf.
  simpl in Hz, Hf. rewrite <- Hz, <- Hf.
  split; (intros [H|H]; [left | right]);
    try (rewrite H; reflexivity);
    match type of H with
    | is_true ?x = true => destruct x as [[| [|] | | | |]|]; try discriminate; reflexivity
    end.
Qed.

Lemma fit_needs_the_token_true_witness :
  fitToData (MkObject {[ js "fit" := JStr (js "True") ]} ObjectPrototype) = true <->
  (exists post, last_entry (js "fit: True") (js "zoomFeatures") (js "true") post) \/
  (exists post, last_entry (js "fit: True") (js "fit") (js "true") post).
Proof.
  apply (fit_needs_the_token_true (js "fit: True")
           (MkObject {[ js "fit" := JStr (js "True") ]} ObjectPrototype)).
  vm_compute; reflexivity.
Defined.

(** X14.  The legend is left out exactly when the last line that sets
    [legend] has the value [false], in lower case and with nothing after
    it; with no such line, or any other value, it is shown. *)
Theorem legend_needs_the_token_false (t : jsstring) (opts : jsobject) :
  parseYamlLike t = Some opts ->
  legend_shown opts = false <->
  exists post, last_entry t (js "legend") (js "false") post.
Proof.
  intros Hrun. unfold legend_shown.
  pose proof (option_is_boolean t opts Legend false Hrun) as Hl. simpl in Hl.
  rewrite <- Hl. split.
  - destruct (get_option opts Legend) as [[| [|] | | | |]|]; try discriminate. reflexivity.
  - intros ->. reflexivity.
Qed.

Lemma legend_needs_the_token_false_witness :
  legend_shown (MkObject {[ js "legend" := JBool false ]} ObjectPrototype) = false <->
  exists post, last_entry (js "legend: false") (js "legend") (js "false") post.
Proof.
  apply (legend_needs_the_token_false (js "legend: false")
           (MkObject {[ js "legend" := JBool false ]} ObjectPrototype)).
  vm_compute; reflexivity.
Defined.

(** The value of a text that is not numeric and is not the token [false]
    is true as a condition. *)
Lemma entry_value_word_truthy (val : jsstring) (rest : list jsstring) :
  trim val = val ->
  isNaN (Number val) = true ->
  val <> js "false" ->
  to_boolean (entry_value val rest) = true.
Proof.
  intros Htrim Hnan Hf.
  assert (Hne : val <> []).
  { intros ->. rewrite Number_empty_trim in Hnan by reflexivity. discriminate. }
  unfold entry_value.
  destruct val as [|c val']; [congruence|]. cbn [is_nil andb].
  rewrite Htrim. destruct (bracket_test (c :: val')) eqn:Eb.
  { destruct (JSON_parse (replace_quotes (c :: val'))) as [v|] eqn:Ej; [|reflexivity].
    apply bracket_test_head in Eb as [r [= -> ->]].
    change (replace_quotes (91 :: r)) with (91 :: replace_quotes r) in Ej.
    apply JSON_parse_bracket in Ej. destruct v; try discriminate. reflexivity. }
  destruct (string_eqb (c :: val') (js "true")) eqn:Et; [reflexivity|].
  destruct (string_eqb (c :: val') (js "false")) eqn:Ef.
  { apply string_eqb_eq in Ef. congruence. }
  simpl orb. rewrite Hnan. reflexivity.
Qed.

(** X15.  The start and end markers are drawn when no line sets
    [showStartEnd]; they are left out when the last such line has the
    value [false]; and they are drawn when it has any value that is not
    numeric and is not exactly [false], so that [False], [no] or [off] do
    not switch them off. *)
Theorem markers_need_the_token_false (t : jsstring) (opts : jsobject) :
  parseYamlLike t = Some opts ->
  (no_entry t (js "showStartEnd") -> showStartEnd opts = true) /\
  (forall post, last_entry t (js "showStartEnd") (js "false") post ->
                showStartEnd opts = false) /\
  (forall val post,
     last_entry t (js "showStartEnd") val post ->
     isNaN (Number val) = true -> val <> js "false" ->
     showStartEnd opts = true).
Proof.
  intros Hrun. unfold showStartEnd. split; [|split].
  - intros Hno. rewrite (get_option_absent t opts ShowStartEnd Hrun Hno). reflexivity.
  - intros post Hlast. rewrite (get_option_last t opts ShowStartEnd _ post Hrun Hlast).
    reflexivity.
  - intros val post Hlast Hnan Hf.
    rewrite (get_option_last t opts ShowStartEnd _ post Hrun Hlast).
    pose proof (entry_value_word_truthy val post
                  (last_entry_val_trimmed _ _ _ _ Hlast) Hnan Hf) as Htrue.
    destruct (entry_value val post); try discriminate; exact Htrue.
Qed.

Lemma markers_need_the_token_false_witness :
  showStartEnd (MkObject {[ js "showStartEnd" := JStr (js "False") ]} ObjectPrototype)
  = true.
Proof.
  destruct (markers_need_the_token_false (js "showStartEnd: False")
              (MkObject {[ js "showStartEnd" := JStr (js "False") ]} ObjectPrototype))
    as (_ & _ & H).
  - vm_compute; reflexivity.
  - apply (H (js "False") []); [|reflexivity|discriminate].
    exists [], (js "showStartEnd: False").
    split; [reflexivity|]. split; [reflexivity|]. intros l' Hl'. inversion Hl'.
Defined.

(** X16.  With no [apiKey] line in the block the key of the settings is
    used, and the key is reported missing exactly when that one is empty.
    An [apiKey] line with nothing after the colon (and no list line after
    it) is read as the number 0: it takes the place of the key of the
    settings, and the key is reported missing whatever the settings hold. *)
Theorem empty_api_key_line_hides_the_settings_key
    (t : jsstring) (opts : jsobject) (st : settings) :
  parseYamlLike t = Some opts ->
  (no_entry t (js "apiKey") ->
     api_key opts st = JStr (osApiKey st) /\
     api_key_missing opts st = is_nil (osApiKey st)) /\
  (forall post,
     last_entry t (js "apiKey") [] post ->
     match post with l' :: _ => item_test l' | [] => false end = false ->
     api_key opts st = JNum zero /\ api_key_missing opts st = true).
Proof.
  intros Hrun. unfold api_key_missing, api_key. split.
  - intros Hno. rewrite (get_option_absent t opts ApiKey Hrun Hno). simpl.
    split; [reflexivity|]. destruct (osApiKey st); reflexivity.
  - intros post Hlast Hnext.
    rewrite (get_option_last t opts ApiKey _ post Hrun Hlast).
    unfold entry_value. cbn [is_nil andb]. rewrite Hnext. split; reflexivity.
Qed.

Lemma empty_api_key_line_hides_the_settings_key_witness :
  api_key_missing (MkObject {[ js "apiKey" := JNum zero ]} ObjectPrototype)
    (MkSettings (js "pk.secret") (js "Outdoor_3857") (of_N 54, of_N 3) (of_N 6))
  = true.
Proof.
  destruct (empty_api_key_line_hides_the_settings_key (js "apiKey:")
              (MkObject {[ js "apiKey" := JNum zero ]} ObjectPrototype)
              (MkSettings (js "pk.secret") (js "Outdoor_3857") (of_N 54, of_N 3) (of_N 6)))
    as (_ & H).
  - vm_compute; reflexivity.
  - apply (H []); [|reflexivity].
    exists [], (js "apiKey:").
    split; [reflexivity|]. split; [reflexivity|]. intros l' Hl'. inversion Hl'.
Defined.

(** X17.  The track references of a block: none when no line sets [gpx];
    the items of the list block, in order, when the [gpx] line opens one;
    and the one text after the colon when that text is not bracketed, not
    numeric and not a Boolean token. *)
Theorem gpx_references (t : jsstring) (opts : jsobject) :
  parseYamlLike t = Some opts ->
  (no_entry t (js "gpx") -> gpxInputs opts = []) /\
  (forall l0 ls rest item0 items,
     last_entry t (js "gpx") [] (l0 :: ls ++ rest) ->
     Forall2 (fun l item => item_match l = Some item) (l0 :: ls) (item0 :: items) ->
     match rest with l' :: _ => item_match l' | [] => None end = None ->
     gpxInputs opts = map (fun item => JStr (trim item)) (item0 :: items)) /\
  (forall val post,
     last_entry t (js "gpx") val post ->
     bracket_test val = false ->
     isNaN (Number val) = true ->
     val <> js "true" -> val <> js "false" ->
     gpxInputs opts = [JStr val]).
Proof.
  intros Hrun. unfold gpxInputs. split; [|split].
  - intros Hno. rewrite (get_option_absent t opts Gpx Hrun Hno). reflexivity.
  - intros l0 ls rest item0 items Hlast Hitems Hrest.
    rewrite (get_option_last t opts Gpx _ _ Hrun Hlast). unfold entry_value.
    inversion Hitems as [|? ? ? ? H0 _]; subst.
    cbn [is_nil andb]. rewrite (item_match_test _ _ H0).
    change (l0 :: ls ++ rest) with ((l0 :: ls) ++ rest).
    rewrite (collect_items_block _ _ _ Hitems Hrest).
    cbn [fst]. rewrite <- (map_map trim JStr). reflexivity.
  - intros val post Hlast Hb Hnan Ht Hf.
    rewrite (get_option_last t opts Gpx _ post Hrun Hlast).
    pose proof (last_entry_val_trimmed _ _ _ _ Hlast) as Htrim.
    assert (Hne : val <> []).
    { intros ->. rewrite Number_empty_trim in Hnan by reflexivity. discriminate. }
    unfold entry_value. destruct val as [|c val']; [congruence|]. cbn [is_nil andb].
    rewrite Htrim, Hb, (string_eqb_neq _ _ Ht), (string_eqb_neq _ _ Hf), Hnan.
    reflexivity.
Qed.

Lemma gpx_references_witness :
  gpxInputs (MkObject {[ js "gpx" := JStr (js "Routes/a.gpx") ]} ObjectPrototype)
  = [JStr (js "Routes/a.gpx")].
Proof.
  destruct (gpx_references (js "gpx: Routes/a.gpx")
              (MkObject {[ js "gpx" := JStr (js "Routes/a.gpx") ]} ObjectPrototype))
    as (_ & _ & H).
  - vm_compute; reflexivity.
  - apply (H (js "Routes/a.gpx") []); try reflexivity; try discriminate.
    exists [], (js "gpx: Routes/a.gpx").
    split; [reflexivity|]. split; [reflexivity|]. intros l' Hl'. inversion Hl'.
Defined.

(* ===================================================================== *)
(** * The settings tab *)
(* ===================================================================== *)

Lemma drop_while_again (p : char -> bool) (s : jsstring) :
  drop_while p (drop_while p s) = drop_while p s.
Proof.
  destruct (drop_while p s) as [|c r] eqn:E; [reflexivity|].
  simpl. rewrite (drop_while_head _ _ _ _ E). reflexivity.
Qed.

Lemma trim_trim (s : jsstring) : trim (trim s) = trim s.
Proof.
  unfold trim at 1.
  assert (Hstart : trimStart (trim s) = trim s).
  { destruct (trim s) as [|c u] eqn:E; [reflexivity|].
    destruct (trimEnd_prefix (trimStart s)) as [w Hw].
    fold (trim s) in Hw. rewrite E in Hw.
    unfold trimStart in *. simpl. rewrite (drop_while_head _ _ _ _ Hw). reflexivity. }
  rewrite Hstart. unfold trim, trimEnd.
  rewrite rev_involutive, drop_while_again. reflexivity.
Qed.

Lemma Number_trim (s : jsstring) : Number (trim s) = Number s.
Proof. unfold Number. rewrite trim_trim. reflexivity. Qed.

Lemma trim_blank (s : jsstring) : Forall (fun c => is_space c = true) s -> trim s = [].
Proof.
  intros H. unfold trim, trimStart.
  rewrite <- (app_nil_r s), (drop_while_spaces s [] H). reflexivity.
Qed.

Lemma split_on_cons (sep : char) (s : jsstring) :
  exists p ps, split_on sep s = p :: ps.
Proof.
  induction s as [|c s (p & ps & IH)]; simpl; [eauto|].
  destruct (c =? sep); [eauto|]. rewrite IH. simpl. eauto.
Qed.

Lemma split_on_one (sep : char) (s : jsstring) : forall x,
  split_on sep s = [x] -> s = x /\ Forall (fun c => c <> sep) x.
Proof.
  induction s as [|c s IH]; intros x; simpl.
  - intros [= <-]. auto.
  - destruct (c =? sep) eqn:E.
    + destruct (split_on_cons sep s) as (p & ps & Hps). rewrite Hps. discriminate.
    + destruct (split_on_cons sep s) as (p & ps & Hps). rewrite Hps. simpl.
      intros [= <- ->]. destruct (IH p Hps) as [-> Hp].
      split; [reflexivity|]. constructor; [apply N.eqb_neq, E | exact Hp].
Qed.

Lemma split_on_two (sep : char) (s : jsstring) : forall x y,
  split_on sep s = [x; y] ->
  s = x ++ sep :: y /\ Forall (fun c => c <> sep) x /\ Forall (fun c => c <> sep) y.
Proof.
  induction s as [|c s IH]; intros x y; simpl; [discriminate|].
  destruct (c =? sep) eqn:E.
  - intros [= <- Hy]. apply N.eqb_eq in E as ->.
    destruct (split_on_one sep s y Hy) as [-> Hy']. auto.
  - destruct (split_on_cons sep s) as (p & ps & Hps). rewrite Hps. simpl.
    intros [= <- ->]. destruct (IH p y Hps) as (-> & Hp & Hy).
    split; [reflexivity|]. split; [|exact Hy].
    constructor; [apply N.eqb_neq, E | exact Hp].
Qed.

Lemma split_on_plain (sep : char) (s : jsstring) :
  Forall (fun c => c <> sep) s -> split_on sep s = [s].
Proof.
  induction 1 as [|c s Hc _ IH]; simpl; [reflexivity|].
  rewrite (proj2 (N.eqb_neq c sep) Hc), IH. reflexivity.
Qed.

Lemma split_on_pair (sep : N) (x y : list N) :
  Forall (fun c => c <> sep) x -> Forall (fun c => c <> sep) y ->
  split_on sep (x ++ sep :: y) = [x; y].
Proof.
  intros Hx Hy. induction Hx as [|c x Hc _ IH]; simpl.
  - rewrite N.eqb_refl, (split_on_plain sep y Hy). reflexivity.
  - rewrite (proj2 (N.eqb_neq c sep) Hc), IH. reflexivity.
Qed.

(** X18.  The center field changes the settings, and saves them, exactly
    when its text is two pieces around a single comma and both pieces read
    as numbers; the center is then the pair of the two numbers.  In every
    other case the settings are left as they were and are not saved; the
    other settings are never touched. *)
Theorem center_field_needs_two_numbers (v : jsstring) (st : settings) :
  let st' := (center_onChange v st).1 in
  let saved := (center_onChange v st).2 in
  (osApiKey st' = osApiKey st /\ defaultStyle st' = defaultStyle st /\
   defaultZoom st' = defaultZoom st) /\
  (saved = false -> st' = st) /\
  (saved = true <->
     exists x y : list N,
       v = x ++ 44 :: y /\
       Forall (fun c => c <> 44) x /\ Forall (fun c => c <> 44) y /\
       isNaN (Number x) = false /\ isNaN (Number y) = false) /\
  (forall x y : list N,
     v = x ++ 44 :: y ->
     Forall (fun c => c <> 44) x -> Forall (fun c => c <> 44) y ->
     isNaN (Number x) = false -> isNaN (Number y) = false ->
     defaultCenter st' = (Number x, Number y)).
Proof.
  intros st' saved. subst st' saved. unfold center_onChange.
  assert (Hpair : forall x y : list N,
            v = x ++ 44 :: y ->
            Forall (fun c => c <> 44) x -> Forall (fun c => c <> 44) y ->
            map (fun s => Number (trim s)) (split_on 44 v) = [Number x; Number y]).
  { intros x y -> Hx Hy. rewrite (split_on_pair 44 x y Hx Hy). simpl.
    rewrite !Number_trim. reflexivity. }
  destruct (split_on 44 v) as [|x [|y [|z ps]]] eqn:Es; simpl.
  1, 2, 4: (split; [auto|]; split; [auto|]; split;
            [split; [discriminate|];
             intros (x' & y' & Hv & Hx & Hy & _);
             rewrite Hv, (split_on_pair 44 x' y' Hx Hy) in Es; discriminate
            | intros x' y' Hv Hx Hy _ _;
              rewrite Hv, (split_on_pair 44 x' y' Hx Hy) in Es; discriminate]).
  destruct (split_on_two 44 v x y Es) as (Hv & Hx & Hy).
  rewrite !Number_trim, andb_true_r.
  destruct (isNaN (Number x)) eqn:Ex; destruct (isNaN (Number y)) eqn:Ey; simpl.
  4: { split; [auto|]. split; [discriminate|]. split.
       - split; [|reflexivity]. intros _. exists x, y. auto.
       - intros x' y' Hv' Hx' Hy' _ _.
         pose proof (Hpair x' y' Hv' Hx' Hy') as H1.
         pose proof (Hpair x y Hv Hx Hy) as H2. rewrite H1 in H2.
         injection H2 as -> ->. reflexivity. }
  all: split; [auto|]; split; [auto|]; split;
    [split; [discriminate|];
     intros (x' & y' & Hv' & Hx' & Hy' & Hnx & Hny);
     pose proof (Hpair x' y' Hv' Hx' Hy') as H1;
     pose proof (Hpair x y Hv Hx Hy) as H2; rewrite H1 in H2;
     injection H2 as Hxx Hyy; congruence
    | intros x' y' Hv' Hx' Hy' Hnx Hny;
      pose proof (Hpair x' y' Hv' Hx' Hy') as H1;
      pose proof (Hpair x y Hv Hx Hy) as H2; rewrite H1 in H2;
      injection H2 as Hxx Hyy; congruence].
Qed.

(** X19.  A field that is cleared is not refused: blank text reads as the
    number 0, so a blank zoom field stores the zoom 0 and a center field
    holding only a comma (with or without blanks around it) stores the
    center (0, 0); both are saved. *)
Theorem blank_fields_store_zero (x y : list N) (st : settings) :
  Forall (fun c => is_space c = true) x ->
  Forall (fun c => is_space c = true) y ->
  zoom_onChange x st =
    (MkSettings (osApiKey st) (defaultStyle st) (defaultCenter st) zero, true) /\
  center_onChange (x ++ 44 :: y) st =
    (MkSettings (osApiKey st) (defaultStyle st) (zero, zero) (defaultZoom st), true).
Proof.
  intros Hx Hy.
  assert (Hnum : forall s, Forall (fun c => is_space c = true) s -> Number s = zero).
  { intros s Hs. apply Number_empty_trim, trim_blank, Hs. }
  assert (Hsep : forall s, Forall (fun c => is_space c = true) s ->
                           Forall (fun c => c <> 44) s).
  { intros s Hs. eapply Forall_impl; [exact Hs|]. intros c Hc ->. discriminate. }
  split.
  - unfold zoom_onChange. rewrite (Hnum x Hx). reflexivity.
  - unfold center_onChange. rewrite (split_on_pair 44 x y (Hsep x Hx) (Hsep y Hy)).
    simpl. rewrite !Number_trim, (Hnum x Hx), (Hnum y Hy). reflexivity.
Qed.

Lemma blank_fields_store_zero_witness :
  center_onChange (js " , ") (MkSettings (js "k") (js "Road_3857") (of_N 54, of_N 3) (of_N 6))
  = (MkSettings (js "k") (js "Road_3857") (zero, zero) (of_N 6), true).
Proof.
  refine (proj2 (blank_fields_store_zero (js " ") (js " ")
                   (MkSettings (js "k") (js "Road_3857") (of_N 54, of_N 3) (of_N 6)) _ _));
    repeat constructor.
Defined.

(** X20.  The key the settings tab stores has no white space at either
    end, and entering a stored key again stores the same key. *)
Theorem stored_api_key_is_trimmed (v : jsstring) (st : settings) :
  let st' := (apiKey_onChange v st).1 in
  trim (osApiKey st') = osApiKey st' /\
  apiKey_onChange (osApiKey st') st' = apiKey_onChange v st /\
  (forall c r, osApiKey st' = c :: r -> is_space c = false) /\
  (forall c r, rev (osApiKey st') = c :: r -> is_space c = false).
Proof.
  intros st'. subst st'. unfold apiKey_onChange. simpl.
  split; [apply trim_trim|]. split; [rewrite trim_trim; reflexivity|]. split.
  - intros c r H. destruct (trimEnd_prefix (trimStart v)) as [w Hw].
    fold (trim v) in Hw. rewrite H in Hw. exact (drop_while_head _ _ _ _ Hw).
  - intros c r. unfold trim. apply trimEnd_last.
Qed.

(* ===================================================================== *)
(** * Worked examples of the specification *)
(* ===================================================================== *)

Example parse_zoom :
  parseYamlLike (js "zoom: 12" ++ [LF]) =
  Some (MkObject {[ js "zoom" := JNum (of_N 12) ]} ObjectPrototype).
Proof. vm_compute; reflexivity. Qed.

Example parse_flag :
  parseYamlLike (js "flag: true" ++ [LF]) =
  Some (MkObject {[ js "flag" := JBool true ]} ObjectPrototype).
Proof. vm_compute; reflexivity. Qed.

Example parse_items :
  parseYamlLike (js "items:" ++ [LF] ++ js "  - a" ++ [LF] ++ js "  - b" ++ [LF]) =
  Some (MkObject {[ js "items" := JArr [JStr (js "a"); JStr (js "b")] ]} ObjectPrototype).
Proof. vm_compute; reflexivity. Qed.

Example split_lines_crlf :
  split_lines (js "a: 1" ++ [CR; LF] ++ js "b" ++ [CR] ++ js "c" ++ [LF]) =
  [js "a: 1"; js "b" ++ [CR] ++ js "c"; []].
Proof. reflexivity. Qed.
